(** * Conditional hoisting in loopy's loop-nest builder

    A shallow embedding of [loopy/codegen/control.py], of the piecewise-affine
    helpers of [loopy/isl.py] and of the local-axis checks of
    [loopy/target/ispc.py], together with the properties of these functions
    that the design document of the code generator states.

    Python sets and frozensets are [gset]s, dictionaries are [gmap]s, lists are
    lists.  A Python function that may raise returns a [result]; the recursive
    builder additionally takes fuel, and running out of it is a third outcome
    that is shown never to happen with enough fuel. *)

From stdpp Require Import gmap strings list fin_maps pretty.

Local Open Scope string_scope.
Local Open Scope nat_scope.
Local Open Scope list_scope.

(** ** Exceptions and fallible computations *)

Inductive exn : Type :=
| RuntimeError (msg : string)
| NotImplementedError (msg : string)
| ValueError (msg : string)
| TypeError (msg : string)
| KeyError (key : string)
| IndexError (msg : string)
| LoopyError (msg : string).

Inductive result (A : Type) : Type :=
| Ok (a : A)
| Raise (e : exn).

Arguments Ok {A} a.
Arguments Raise {A} e.

Definition is_Ok {A} (r : result A) : bool :=
  match r with Ok _ => true | Raise _ => false end.

Definition is_Raise {A} (r : result A) : bool :=
  match r with Ok _ => false | Raise _ => true end.

Definition rbind {A B} (r : result A) (k : A → result B) : result B :=
  match r with
  | Ok a => k a
  | Raise e => Raise e
  end.

(** ** The kernel as the code generator sees it *)

(** Modelled from the spec: the iname tags of [loopy.kernel.data], which is not
    among the sources.  The design document lists them: unrolled,
    ILP-interleaved (unrolled or looped), forced-sequential, hardware group
    axis, hardware local axis; an iname without an entry in [iname_to_tag] is
    plain sequential. *)
Inductive iname_tag : Type :=
| UnrollTag
| UnrolledIlpTag
| LoopedIlpTag
| ForceSequentialTag
| GroupIndexTag (axis : nat)
| LocalIndexTag (axis : nat).

(** [isinstance(tag, HardwareParallelTag)] *)
Definition is_HardwareParallelTag (tag : iname_tag) : bool :=
  match tag with
  | GroupIndexTag _ | LocalIndexTag _ => true
  | _ => false
  end.

(** [isinstance(tag, LocalIndexTag)] *)
Definition is_LocalIndexTag (tag : iname_tag) : bool :=
  match tag with
  | LocalIndexTag _ => true
  | _ => false
  end.

(** A tag that is not hardware-parallel is a sequential one. *)
Definition is_sequential (tag : option iname_tag) : bool :=
  match tag with
  | None => true
  | Some t => negb (is_HardwareParallelTag t)
  end.

(** Modelled from the spec: [tag.key] of a hardware axis tag, the pair of the
    tag's class name and its axis number. *)
Definition tag_key (tag : iname_tag) : string * nat :=
  match tag with
  | GroupIndexTag axis => ("GroupIndexTag", axis)
  | LocalIndexTag axis => ("LocalIndexTag", axis)
  | UnrollTag => ("UnrollTag", 0)
  | UnrolledIlpTag => ("UnrolledIlpTag", 0)
  | LoopedIlpTag => ("LoopedIlpTag", 0)
  | ForceSequentialTag => ("ForceSequentialTag", 0)
  end.

Inductive sched_item : Type :=
| EnterLoop (iname : string)
| LeaveLoop (iname : string)
| Barrier (comment : string)
| RunInstruction (insn_id : string).

Record instruction : Type := mk_instruction {
  insn_predicates : gset string
}.

Record kernel : Type := mk_kernel {
  iname_to_tag : gmap string iname_tag;
  schedule : list sched_item;
  id_to_insn : gmap string instruction
}.

(** ** Schedule queries of [loopy.schedule] *)

(** Modelled from the spec: [find_active_inames_at] of [loopy.schedule], which
    is not among the sources: the inames whose [EnterLoop] comes before the
    position and whose [LeaveLoop] has not yet occurred. *)
Fixpoint active_inames_scan (items : list sched_item) (open : list string)
  : list string :=
  match items with
  | [] => open
  | EnterLoop iname :: items' => active_inames_scan items' (iname :: open)
  | LeaveLoop _ :: items' => active_inames_scan items' (tail open)
  | _ :: items' => active_inames_scan items' open
  end.

Definition find_active_inames_at (knl : kernel) (sched_index : nat)
  : gset string :=
  list_to_set (active_inames_scan (take sched_index (schedule knl)) []).

(** Modelled from the spec: the items of the subtree rooted at a position, the
    position's own item included: for an [EnterLoop], everything up to and
    including the matching [LeaveLoop]; for any other item, that item alone. *)
Fixpoint subloop_scan (items : list sched_item) (level : nat)
  : list sched_item :=
  match items with
  | [] => []
  | EnterLoop iname :: items' =>
      EnterLoop iname :: subloop_scan items' (S level)
  | LeaveLoop iname :: items' =>
      match level with
      | 0 | 1 => [LeaveLoop iname]
      | S level' => LeaveLoop iname :: subloop_scan items' level'
      end
  | item :: items' =>
      match level with
      | 0 => [item]
      | _ => item :: subloop_scan items' level
      end
  end.

Definition subtree_items (sched : list sched_item) (sched_index : nat)
  : list sched_item :=
  subloop_scan (drop sched_index sched) 0.

Definition is_Barrier (item : sched_item) : bool :=
  match item with Barrier _ => true | _ => false end.

Definition is_leaf (item : sched_item) : bool :=
  match item with
  | Barrier _ | RunInstruction _ => true
  | _ => false
  end.

(** Modelled from the spec: [has_barrier_within] of [loopy.schedule]: whether
    a [Barrier] occurs anywhere in the subtree rooted at the position. *)
Definition has_barrier_within (knl : kernel) (sched_index : nat) : bool :=
  existsb is_Barrier (subtree_items (schedule knl) sched_index).

(** Modelled from the spec: [generate_sub_sched_items] of [loopy.schedule]:
    the [Barrier] and [RunInstruction] leaves of the subtree rooted at the
    position, nested loops included, in schedule order. *)
Definition generate_sub_sched_items (sched : list sched_item)
    (sched_index : nat) : list sched_item :=
  filter (λ item, is_leaf item = true) (subtree_items sched sched_index).

(** ** [get_admissible_conditional_inames_for] *)

(** The loop over [kernel.iname_to_tag] adds an iname to [result] when its tag
    is hardware-parallel and either no barrier lies within or the tag is not a
    local index tag.  The order of the additions does not matter: the inames
    added are the domain of the filtered dictionary. *)
Definition admissible_hw_tag (has_barrier : bool) (tag : iname_tag) : bool :=
  is_HardwareParallelTag tag
  && (negb has_barrier || negb (is_LocalIndexTag tag)).

Definition get_admissible_conditional_inames_for (knl : kernel)
    (sched_index : nat) : gset string :=
  let result := find_active_inames_at knl sched_index in
  let has_barrier := has_barrier_within knl sched_index in
  result ∪
  dom (filter (λ it : string * iname_tag,
                 admissible_hw_tag has_barrier it.2 = true)
              (iname_to_tag knl)).

(** ** [remove_inames_for_shared_hw_axes] *)

(** [tag_key_uses.setdefault(tag.key, []).append(iname)] *)
Definition record_tag_use (knl : kernel)
    (tag_key_uses : gmap (string * nat) (list string)) (iname : string)
  : gmap (string * nat) (list string) :=
  match iname_to_tag knl !! iname with
  | Some tag =>
      if is_HardwareParallelTag tag
      then <[tag_key tag :=
               default [] (tag_key_uses !! tag_key tag) ++ [iname]]>
             tag_key_uses
      else tag_key_uses
  | None => tag_key_uses
  end.

Definition in_multi_use (knl : kernel) (multi_use_keys : gset (string * nat))
    (iname : string) : bool :=
  match iname_to_tag knl !! iname with
  | Some tag =>
      is_HardwareParallelTag tag && bool_decide (tag_key tag ∈ multi_use_keys)
  | None => false
  end.

Definition remove_inames_for_shared_hw_axes (knl : kernel)
    (cond_inames : gset string) : gset string :=
  let tag_key_uses :=
    foldl (record_tag_use knl) ∅ (elements cond_inames) in
  let multi_use_keys : gset (string * nat) :=
    dom (filter (λ ku : (string * nat) * list string, 1 < length ku.2)
                tag_key_uses) in
  let multi_use_inames : gset string :=
    filter (λ iname, in_multi_use knl multi_use_keys iname = true)
           cond_inames in
  cond_inames ∖ multi_use_inames.

(** ** [get_required_predicates] *)

(** One round of the loop over the leaves; [result] is [None] until the first
    leaf has been seen. *)
Definition required_predicates_step (knl : kernel)
    (result_ : option (gset string)) (item : sched_item)
  : result (option (gset string)) :=
  rbind
    (match item with
     | Barrier _ => Ok (∅ : gset string)
     | RunInstruction insn_id =>
         match id_to_insn knl !! insn_id with
         | Some insn => Ok (insn_predicates insn)
         | None => Raise (KeyError insn_id)
         end
     | _ => Raise (RuntimeError "unexpected schedule item type")
     end)
    (λ my_preds,
       match result_ with
       | None => Ok (Some my_preds)
       | Some r => Ok (Some (r ∩ my_preds))
       end).

Fixpoint required_predicates_loop (knl : kernel)
    (result_ : option (gset string)) (items : list sched_item)
  : result (option (gset string)) :=
  match items with
  | [] => Ok result_
  | item :: items' =>
      rbind (required_predicates_step knl result_ item)
            (λ r, required_predicates_loop knl r items')
  end.

(** The Python function returns [None], not a set, when the loop body never
    runs. *)
Definition get_required_predicates (knl : kernel) (sched_index : nat)
  : result (option (gset string)) :=
  required_predicates_loop knl None
    (generate_sub_sched_items (schedule knl) sched_index).

(** ** Vocabulary for the properties of these functions *)

(** The predicate set a leaf contributes. *)
Definition leaf_predicates (knl : kernel) (item : sched_item) : gset string :=
  match item with
  | RunInstruction insn_id =>
      default ∅ (insn_predicates <$> id_to_insn knl !! insn_id)
  | _ => ∅
  end.

(** A leaf whose instruction, if it is one, the kernel knows. *)
Definition known_leaf (knl : kernel) (item : sched_item) : Prop :=
  match item with
  | Barrier _ => True
  | RunInstruction insn_id => is_Some (id_to_insn knl !! insn_id)
  | _ => False
  end.

(** The key of the hardware axis an iname is tagged to, if it is tagged to
    one. *)
Definition hw_key (knl : kernel) (iname : string) : option (string * nat) :=
  match iname_to_tag knl !! iname with
  | Some tag =>
      if is_HardwareParallelTag tag then Some (tag_key tag) else None
  | None => None
  end.

(** Another iname of [cond_inames] is tagged to the same hardware axis. *)
Definition shares_hw_axis (knl : kernel) (cond_inames : gset string)
    (iname : string) : Prop :=
  ∃ key other,
    hw_key knl iname = Some key
    ∧ other ∈ cond_inames ∧ other ≠ iname
    ∧ hw_key knl other = Some key.

(** ** [loopy/isl.py]: helpers on piecewise-affine expressions *)

(** The operations of the isl library that the helpers call.  A [PwAff] is
    known through its list of pieces, its aggregate domain and the sets on
    which it is at least, respectively at most, a given affine expression. *)
Class IslOps : Type := {
  isl_set : Type;
  isl_aff : Type;
  isl_pw_aff : Type;
  get_pieces : isl_pw_aff → list (isl_set * isl_aff);
  get_aggregate_domain : isl_pw_aff → isl_set;
  ge_set : isl_pw_aff → isl_aff → isl_set;
  le_set : isl_pw_aff → isl_aff → isl_set;
  set_is_equal : isl_set → isl_set → bool;
  plain_is_equal : isl_aff → isl_aff → bool;
  is_cst : isl_aff → bool
}.

Section IslHelpers.
Context {isl : IslOps}.

(** The loop over [pieces[1:]] of [pw_aff_to_aff]. *)
Fixpoint all_plain_equal (first_aff : isl_aff)
    (others : list (isl_set * isl_aff)) : bool :=
  match others with
  | [] => true
  | (_, other_aff) :: others' =>
      if plain_is_equal first_aff other_aff
      then all_plain_equal first_aff others'
      else false
  end.

Definition pw_aff_to_aff (pw_aff : isl_pw_aff) : result isl_aff :=
  let pieces := get_pieces pw_aff in
  match pieces with
  | [] => Raise (RuntimeError "PwAff does not have any pieces")
  | (_, first_aff) :: others =>
      if bool_decide (1 < length pieces)
      then
        if all_plain_equal first_aff others
        then Ok first_aff
        else Raise (NotImplementedError
               "only single-valued piecewise affine expressions are supported here--encountered multi-valued expression")
      else Ok first_aff
  end.

(** The loop over the pieces of [static_extremum_of_pw_aff]. *)
Fixpoint extremum_search (pw_aff : isl_pw_aff) (constants_only : bool)
    (set_method : isl_pw_aff → isl_aff → isl_set) (agg_domain : isl_set)
    (pieces : list (isl_set * isl_aff)) : option isl_aff :=
  match pieces with
  | [] => None
  | (_, candidate_aff) :: pieces' =>
      if constants_only && negb (is_cst candidate_aff)
      then extremum_search pw_aff constants_only set_method agg_domain pieces'
      else if set_is_equal (set_method pw_aff candidate_aff) agg_domain
      then Some candidate_aff
      else extremum_search pw_aff constants_only set_method agg_domain pieces'
  end.

Definition static_extremum_of_pw_aff (pw_aff : isl_pw_aff)
    (constants_only : bool)
    (set_method : isl_pw_aff → isl_aff → isl_set) (what : string)
  : result isl_aff :=
  let pieces := get_pieces pw_aff in
  match pieces with
  | [(_, only_aff)] => Ok only_aff
  | _ =>
      let agg_domain := get_aggregate_domain pw_aff in
      match extremum_search pw_aff constants_only set_method agg_domain
              pieces with
      | Some candidate_aff => Ok candidate_aff
      | None =>
          Raise (ValueError
                   ("a static " +:+ what +:+ " was not found for PwAff"))
      end
  end.

Definition static_min_of_pw_aff (pw_aff : isl_pw_aff)
    (constants_only : bool) : result isl_aff :=
  static_extremum_of_pw_aff pw_aff constants_only ge_set "minimum".

Definition static_max_of_pw_aff (pw_aff : isl_pw_aff)
    (constants_only : bool) : result isl_aff :=
  static_extremum_of_pw_aff pw_aff constants_only le_set "maximum".
(** Any two pieces of the expression, at different positions, carry plainly
    equal affine expressions. *)
Definition pairwise_equal (pieces : list (isl_set * isl_aff)) : Prop :=
  ∀ i j p q, i ≠ j → pieces !! i = Some p → pieces !! j = Some q →
             plain_is_equal p.2 q.2 = true.

End IslHelpers.

(** *** A small instance: one integer variable over finite sets

    Sets are finite sets of integers, an affine expression [a*x + b] is the
    pair of its coefficient and its constant, and a piecewise-affine
    expression is its list of pieces; the value at a point is that of the
    first piece whose set contains the point. *)
Module FiniteIsl.

Definition aff_eval (a : Z * Z) (x : Z) : Z := (a.1 * x + a.2)%Z.

Fixpoint pw_eval (pieces : list (gset Z * (Z * Z))) (x : Z) : option Z :=
  match pieces with
  | [] => None
  | (s, a) :: pieces' =>
      if bool_decide (x ∈ s) then Some (aff_eval a x) else pw_eval pieces' x
  end.

Definition aggregate_domain (pieces : list (gset Z * (Z * Z))) : gset Z :=
  ⋃ (map fst pieces).

Definition compare_set (cmp : Z → Z → bool)
    (pieces : list (gset Z * (Z * Z))) (a : Z * Z) : gset Z :=
  filter (λ x, match pw_eval pieces x with
               | Some v => cmp v (aff_eval a x)
               | None => false
               end = true)
         (aggregate_domain pieces).

#[export] Instance ops : IslOps := {|
  isl_set := gset Z;
  isl_aff := Z * Z;
  isl_pw_aff := list (gset Z * (Z * Z));
  get_pieces := λ pw, pw;
  get_aggregate_domain := aggregate_domain;
  ge_set := compare_set Z.geb;
  le_set := compare_set Z.leb;
  set_is_equal := λ s t, bool_decide (s = t);
  plain_is_equal := λ a b, bool_decide (a = b);
  is_cst := λ a, bool_decide (a.1 = 0%Z)
|}.

(** [x] on {0, 1, 2}: one piece, not constant. *)
Definition identity_on_0_2 : list (gset Z * (Z * Z)) :=
  [ ({[0%Z; 1%Z; 2%Z]}, (1%Z, 0%Z)) ].

(** [x] on {0, 1} and [5] on {2, 3}. *)
Definition ramp_then_five : list (gset Z * (Z * Z)) :=
  [ ({[0%Z; 1%Z]}, (1%Z, 0%Z)); ({[2%Z; 3%Z]}, (0%Z, 5%Z)) ].

(** [7] on {0} and [7] on {4}: two pieces with the same expression. *)
Definition seven_twice : list (gset Z * (Z * Z)) :=
  [ ({[0%Z]}, (0%Z, 7%Z)); ({[4%Z]}, (0%Z, 7%Z)) ].

End FiniteIsl.

(** ** [loopy/target/ispc.py]: the local axes of the ISPC target *)









(** ** The conditional-hoisting builder of [build_loop_nest] *)

(** Modelled from the spec: [CodeGenerationState] of [loopy.codegen], which is
    not among the sources: the implemented domain, the implemented predicates
    and the backend's expression-to-code mapper. *)
Record CodeGenerationState (D M : Type) : Type := mk_codegen_state {
  implemented_domain : D;
  implemented_predicates : gset string;
  c_code_mapper : M
}.

Arguments mk_codegen_state {D M} _ _ _.
Arguments implemented_domain {D M} _.
Arguments implemented_predicates {D M} _.
Arguments c_code_mapper {D M} _.

(** What the builder calls and does not define: the polyhedral operations of
    isl, the bounds-check derivation, the schedule query for used inames, and
    the code emission of the backend. *)
Class Collaborators : Type := {
  constraint : Type;
  domain : Type;
  code_mapper : Type;
  generated : Type;
  (** lines 220 to 229: the domain of [check_inames], aligned to the
      implemented domain and handed to [get_bounds_checks] with
      [overapproximate=True]; [None] is Python's [None] *)
  get_bounds_checks : kernel → domain → gset string → option (list constraint);
  find_used_inames_within : kernel → nat → gset string;
  (** [isl.BasicSet.universe(cns.get_space()).add_constraint(cns)] *)
  universe_add_constraint : constraint → domain;
  (** [isl.align_two] followed by [intersect] *)
  intersect : domain → domain → domain;
  is_empty : domain → bool;
  constraint_to_code : code_mapper → constraint → string;
  wrap_in_if : list string → generated → generated;
  gen_code_block : list generated → generated;
  barrier_statement : string → generated;
  generate_unroll_loop :
    kernel → nat → CodeGenerationState domain code_mapper
    → result (option generated);
  generate_sequential_loop_dim_code :
    kernel → nat → CodeGenerationState domain code_mapper
    → result (option generated);
  generate_instruction_code :
    kernel → instruction → CodeGenerationState domain code_mapper
    → result (option generated)
}.

Abbreviation codegen_state := (CodeGenerationState domain code_mapper).

(** [ScheduleIndexInfo] of lines 187 to 192, for a sibling whose
    [required_predicates] is a set.  [get_required_predicates] returns [None]
    for a subtree without a leaf; an entry that holds that [None] is not
    represented here: on it the set difference of line 260 and the
    intersection of line 282 raise a [TypeError]. *)
Record ScheduleIndexInfo : Type := mk_info {
  schedule_index : nat;
  admissible_cond_inames : gset string;
  required_predicates : gset string
}.

(** The outcome of a run with fuel. *)
Inductive run (A : Type) : Type :=
| Finished (r : result A)
| OutOfFuel.

Arguments Finished {A} r.
Arguments OutOfFuel {A}.

Definition run_bind {A B} (c : run A) (k : A → run B) : run B :=
  match c with
  | Finished (Ok a) => k a
  | Finished (Raise e) => Finished (Raise e)
  | OutOfFuel => OutOfFuel
  end.

Definition ran_out {A} (c : run A) : bool :=
  match c with OutOfFuel => true | Finished _ => false end.

Section Builder.
Context {cb : Collaborators}.


(** Modelled from the spec: [CodeGenerationState.intersect] narrows the
    implemented domain and leaves the rest of the state as it is. *)
Definition state_intersect (st : codegen_state) (set : domain)
  : codegen_state :=
  mk_codegen_state (intersect (implemented_domain st) set)
                   (implemented_predicates st) (c_code_mapper st).

(** [codegen_state.copy(implemented_predicates=preds)] *)
Definition copy_with_predicates (st : codegen_state) (preds : gset string)
  : codegen_state :=
  mk_codegen_state (implemented_domain st) preds (c_code_mapper st).

Definition generate_code_for_sched_index (knl : kernel) (sched_index : nat)
    (st : codegen_state) : result (option generated) :=
  match schedule knl !! sched_index with
  | None => Raise (IndexError "list index out of range")
  | Some (EnterLoop iname) =>
      match iname_to_tag knl !! iname with
      | Some UnrollTag | Some UnrolledIlpTag =>
          generate_unroll_loop knl sched_index st
      | None | Some LoopedIlpTag | Some ForceSequentialTag =>
          generate_sequential_loop_dim_code knl sched_index st
      | Some _ => Raise (RuntimeError "encountered (invalid) EnterLoop")
      end
  | Some (Barrier comment) =>
      let comment_text :=
        if bool_decide (comment = "") then ""
        else " /* " +:+ comment +:+ " */" in
      Ok (Some (barrier_statement
                  ("barrier(CLK_LOCAL_MEM_FENCE)" +:+ comment_text)))
  | Some (RunInstruction insn_id) =>
      match id_to_insn knl !! insn_id with
      | Some insn => generate_instruction_code knl insn st
      | None => Raise (KeyError insn_id)
      end
  | Some (LeaveLoop _) =>
      Raise (RuntimeError "unexpected schedule item type")
  end.

(** [BoundsCheckCache.__call__]; the memoisation does not change what a
    call returns. *)
Definition bounds_check_cache (knl : kernel) (impl_domain : domain)
    (check_inames : gset string) : option (list constraint) :=
  if bool_decide (check_inames = ∅) then Some []
  else get_bounds_checks knl impl_domain check_inames.

(** A found hoist: [(candidate_group_length, bounds_checks,
    current_pred_set)]. *)
Definition hoist : Type := nat * option (list constraint) * gset string.

Definition hoist_length (h : hoist) : nat := h.1.1.
Definition hoist_bounds (h : hoist) : option (list constraint) := h.1.2.
Definition hoist_preds (h : hoist) : gset string := h.2.

(** The truth value of a list of constraints, and of a set. *)
Definition nonempty_list {A} (l : list A) : bool :=
  match l with [] => false | _ => true end.

Definition nonempty_set (s : gset string) : bool :=
  negb (bool_decide (s = ∅)).

(** The test that decides whether a candidate length is recorded. *)
Definition worth_recording (candidate_group_length : nat)
    (bounds_checks : option (list constraint))
    (current_pred_set : gset string) : bool :=
  match bounds_checks with
  | Some cs => nonempty_list cs
  | None => true
  end
  || nonempty_set current_pred_set
  || bool_decide (candidate_group_length = 1).

(** The inames used by the first [candidate_group_length] entries. *)
Definition used_inames_of (knl : kernel) (entries : list ScheduleIndexInfo)
    (candidate_group_length : nat) : gset string :=
  ⋃ (map (λ e, find_used_inames_within knl (schedule_index e))
         (take candidate_group_length entries)).

(** One round of the [while] loop, at a given [candidate_group_length];
    the loop state is [(current_iname_set, current_pred_set,
    found_hoists)].  The lookup cannot fail, since the loop stops at
    [len(sched_index_info_entries)]. *)
Definition grow_step (knl : kernel) (st : codegen_state)
    (entries : list ScheduleIndexInfo) (done_group_lengths : gset nat)
    (acc : gset string * gset string * list hoist)
    (candidate_group_length : nat)
  : gset string * gset string * list hoist :=
  let '(current_iname_set, current_pred_set, found_hoists) := acc in
  if bool_decide (candidate_group_length ∈ done_group_lengths) then acc
  else
    match entries !! (candidate_group_length - 1) with
    | None => acc
    | Some entry =>
        let current_iname_set :=
          current_iname_set ∩ admissible_cond_inames entry in
        let current_pred_set :=
          current_pred_set ∩ required_predicates entry in
        let used_inames := used_inames_of knl entries candidate_group_length in
        let only_unshared_inames :=
          remove_inames_for_shared_hw_axes knl
            (current_iname_set ∩ used_inames) in
        let bounds_checks :=
          bounds_check_cache knl (implemented_domain st)
            only_unshared_inames in
        (current_iname_set, current_pred_set,
         if worth_recording candidate_group_length bounds_checks
              current_pred_set
         then found_hoists
              ++ [(candidate_group_length, bounds_checks, current_pred_set)]
         else found_hoists)
    end.

(** The whole loop: [candidate_group_length] runs from 1 to the number of
    entries. *)
Definition find_hoists (knl : kernel) (st : codegen_state)
    (si_entry : ScheduleIndexInfo) (entries : list ScheduleIndexInfo)
    (done_group_lengths : gset nat) : list hoist :=
  let current_iname_set := admissible_cond_inames si_entry in
  let current_pred_set :=
    required_predicates si_entry ∖ implemented_predicates st in
  (foldl (grow_step knl st entries done_group_lengths)
         (current_iname_set, current_pred_set, [])
         (seq 1 (length entries))).2.

(** [max(found_hoists)]: Python compares the tuples from their first
    component on, and keeps the earlier of two equal items; the lengths of
    the found hoists are distinct, so that no later component is looked
    at. *)
Definition max_hoist (found_hoists : list hoist) : option hoist :=
  match found_hoists with
  | [] => None
  | h :: rest =>
      Some (foldl (λ best h',
                     if hoist_length best <? hoist_length h'
                     then h' else best) h rest)
  end.

(** The loop that combines the bounds checks into [check_set]. *)
Definition combine_checks (bounds_checks : list constraint)
  : option domain :=
  foldl (λ check_set cns,
           let cns_set := universe_add_constraint cns in
           match check_set with
           | None => Some cns_set
           | Some s => Some (intersect s cns_set)
           end)
        None bounds_checks.

(** [is_empty] of lines 332 to 337. *)
Definition group_is_empty (bounds_checks : list constraint) : bool :=
  match combine_checks bounds_checks with
  | None => false
  | Some check_set => is_empty check_set
  end.

(** [new_codegen_state] of lines 332 to 342. *)
Definition narrowed_state (st : codegen_state)
    (bounds_checks : list constraint) (pred_checks : gset string)
  : codegen_state :=
  let new_codegen_state :=
    match combine_checks bounds_checks with
    | None => st
    | Some check_set => state_intersect st check_set
    end in
  if nonempty_set pred_checks
  then copy_with_predicates new_codegen_state
         (implemented_predicates new_codegen_state ∪ pred_checks)
  else new_codegen_state.

(** The guards of line 364 to 366. *)
Definition conditionals (st : codegen_state)
    (bounds_checks : list constraint) (pred_checks : gset string)
  : list string :=
  map (constraint_to_code (c_code_mapper st)) bounds_checks
  ++ elements pred_checks.

(** Lines 360 to 368. *)
Definition wrap_group (st : codegen_state)
    (bounds_checks : list constraint) (pred_checks : gset string)
    (result_ : list generated) : list generated :=
  if nonempty_list bounds_checks || nonempty_set pred_checks
  then [wrap_in_if (conditionals st bounds_checks pred_checks)
                   (gen_code_block result_)]
  else result_.

(** Lines 344 to 368: the code of the chosen group.  [recurse] is the
    builder itself, as it is called for the inside of a group of several
    entries. *)
Definition emit_group
    (recurse : list ScheduleIndexInfo → codegen_state → gset nat
               → run (list generated))
    (knl : kernel) (sched_index_info_entries : list ScheduleIndexInfo)
    (st : codegen_state) (done_group_lengths : gset nat)
    (sched_index : nat) (group_length : nat)
    (bounds_checks : list constraint) (pred_checks : gset string)
  : run (list generated) :=
  let new_codegen_state := narrowed_state st bounds_checks pred_checks in
  if group_is_empty bounds_checks
  then Finished (Ok [])
  else
    run_bind
      (if bool_decide (group_length = 1)
       then
         Finished
           (rbind
              (generate_code_for_sched_index knl sched_index
                 new_codegen_state)
              (λ r, Ok (match r with
                        | None => []
                        | Some c => [c]
                        end)))
       else
         recurse (take group_length sched_index_info_entries)
                 new_codegen_state
                 (done_group_lengths ∪ {[group_length]}))
      (λ result_,
         Finished (Ok (wrap_group st bounds_checks pred_checks result_))).

Fixpoint build_insn_group (fuel : nat) (knl : kernel)
    (sched_index_info_entries : list ScheduleIndexInfo)
    (st : codegen_state) (done_group_lengths : gset nat)
  : run (list generated) :=
  match fuel with
  | 0 => OutOfFuel
  | S fuel' =>
      match sched_index_info_entries with
      | [] => Finished (Ok [])
      | si_entry :: _ =>
          let sched_index := schedule_index si_entry in
          let found_hoists :=
            find_hoists knl st si_entry sched_index_info_entries
              done_group_lengths in
          match max_hoist found_hoists with
          | None =>
              Finished (Raise (ValueError "max() arg is an empty sequence"))
          | Some (group_length, None, _) =>
              Finished (Raise (TypeError "'NoneType' object is not iterable"))
          | Some (group_length, Some bounds_checks, pred_checks) =>
              run_bind
                (emit_group (build_insn_group fuel' knl) knl
                   sched_index_info_entries st done_group_lengths
                   sched_index group_length bounds_checks pred_checks)
                (λ result_,
                   run_bind
                     (build_insn_group fuel' knl
                        (drop group_length sched_index_info_entries)
                        st ∅)
                     (λ rest, Finished (Ok (result_ ++ rest))))
          end
      end
  end.

(** Fuel that is enough for any list of entries of this length. *)
Definition enough_fuel (sched_index_info_entries : list ScheduleIndexInfo)
  : nat :=
  2 * length sched_index_info_entries + 2.

(** [build_insn_group] as [build_loop_nest] calls it. *)
Definition run_build_insn_group (knl : kernel)
    (sched_index_info_entries : list ScheduleIndexInfo)
    (st : codegen_state) (done_group_lengths : gset nat)
  : run (list generated) :=
  build_insn_group (enough_fuel sched_index_info_entries) knl
    sched_index_info_entries st done_group_lengths.
(** *** Vocabulary for the properties of the builder *)

(** The candidate lengths up to [m] that the loop does not skip. *)
Definition candidate_lengths (done_group_lengths : gset nat) (m : nat)
  : list nat :=
  filter (λ k, k ∉ done_group_lengths) (seq 1 m).

(** The entries at those lengths: the ones whose admissible inames and
    required predicates the loop has intersected into its running sets once
    it is through with candidate length [m]. *)
Definition considered (entries : list ScheduleIndexInfo)
    (done_group_lengths : gset nat) (m : nat) : list ScheduleIndexInfo :=
  omap (λ k, entries !! (k - 1)) (candidate_lengths done_group_lengths m).

(** The inames admissible for the first entry and for every considered
    entry. *)
Definition group_iname_set (si_entry : ScheduleIndexInfo)
    (entries : list ScheduleIndexInfo) (done_group_lengths : gset nat)
    (m : nat) : gset string :=
  filter (λ x, Forall (λ e, x ∈ admissible_cond_inames e)
                 (considered entries done_group_lengths m))
         (admissible_cond_inames si_entry).

(** The predicates that the first entry and every considered entry require,
    less the ones the state has implemented. *)
Definition group_pred_set (st : codegen_state) (si_entry : ScheduleIndexInfo)
    (entries : list ScheduleIndexInfo) (done_group_lengths : gset nat)
    (m : nat) : gset string :=
  filter (λ p, Forall (λ e, p ∈ required_predicates e)
                 (considered entries done_group_lengths m))
         (required_predicates si_entry)
  ∖ implemented_predicates st.

(** The bounds checks of the candidate group of length [k]. *)
Definition group_bounds (knl : kernel) (st : codegen_state)
    (si_entry : ScheduleIndexInfo) (entries : list ScheduleIndexInfo)
    (done_group_lengths : gset nat) (k : nat) : option (list constraint) :=
  bounds_check_cache knl (implemented_domain st)
    (remove_inames_for_shared_hw_axes knl
       (group_iname_set si_entry entries done_group_lengths k
        ∩ used_inames_of knl entries k)).

Definition group_hoist (knl : kernel) (st : codegen_state)
    (si_entry : ScheduleIndexInfo) (entries : list ScheduleIndexInfo)
    (done_group_lengths : gset nat) (k : nat) : hoist :=
  (k, group_bounds knl st si_entry entries done_group_lengths k,
   group_pred_set st si_entry entries done_group_lengths k).

Definition recorded (h : hoist) : bool :=
  worth_recording (hoist_length h) (hoist_bounds h) (hoist_preds h).

(** The candidate lengths the loop of a call has left to try. *)
Definition lengths_left (entries : list ScheduleIndexInfo)
    (done_group_lengths : gset nat) : nat :=
  length (candidate_lengths done_group_lengths (length entries)).

End Builder.

(** ** A small backend and kernel on which the functions can be run *)

Module Toy.

(** Generated code as a tree of statements, blocks and conditionals. *)
#[warnings="-register-all"] Inductive code : Type :=
| Stmt (text : string)
| Block (body : list code)
| If (conds : list string) (body : code).

(** A constraint is its text, a domain the list of the constraints that
    bound it; the constraint ["false"] makes a domain empty.  Every checked
    iname gets one range constraint, unless the implemented domain already
    has it; the iname ["nowhere"] has the unsatisfiable one, and asking
    about the iname ["impossible"] gives [None]. *)
Definition range_check (iname : string) : string :=
  if bool_decide (iname = "nowhere") then "false"
  else "0 <= " +:+ iname +:+ " < n_" +:+ iname.

Definition toy_bounds_checks (knl : kernel) (impl_domain : list string)
    (check_inames : gset string) : option (list string) :=
  if bool_decide ("impossible" ∈ check_inames) then None
  else Some (filter (λ c, c ∉ impl_domain)
                    (map range_check (elements check_inames))).

(** The inames around a position, and the position's own loop iname. *)
Definition toy_used_inames (knl : kernel) (sched_index : nat)
  : gset string :=
  find_active_inames_at knl sched_index
  ∪ match schedule knl !! sched_index with
    | Some (EnterLoop iname) => {[iname]}
    | _ => ∅
    end.

#[export] Instance backend : Collaborators := {|
  constraint := string;
  domain := list string;
  code_mapper := unit;
  generated := code;
  get_bounds_checks := toy_bounds_checks;
  find_used_inames_within := toy_used_inames;
  universe_add_constraint := λ cns, [cns];
  intersect := λ s t, s ++ t;
  is_empty := λ s, bool_decide ("false" ∈ s);
  constraint_to_code := λ _ cns, cns;
  wrap_in_if := If;
  gen_code_block := Block;
  barrier_statement := Stmt;
  generate_unroll_loop := λ _ _ _, Ok (Some (Stmt "unrolled loop"));
  generate_sequential_loop_dim_code :=
    λ _ _ _, Ok (Some (Stmt "sequential loop"));
  generate_instruction_code := λ _ _ _, Ok (Some (Stmt "instruction"))
|}.

Definition initial_state : CodeGenerationState (list string) unit :=
  mk_codegen_state [] ∅ ().

(** Two instructions inside a loop over [i], the second one also inside a
    loop over the unrolled [j]; [l] is a local and [g] a group axis. *)
Definition knl : kernel := {|
  iname_to_tag :=
    {[ "j" := UnrollTag; "l" := LocalIndexTag 0; "g" := GroupIndexTag 0 ]};
  schedule :=
    [ EnterLoop "i";
      RunInstruction "a";
      Barrier "";
      EnterLoop "j";
      RunInstruction "b";
      LeaveLoop "j";
      LeaveLoop "i" ];
  id_to_insn :=
    {[ "a" := mk_instruction {[ "p"; "q" ]};
       "b" := mk_instruction {[ "p" ]} ]}
|}.

(** A kernel whose schedule has a loop without a body. *)
Definition knl_empty_loop : kernel := {|
  iname_to_tag := ∅;
  schedule := [ EnterLoop "i"; LeaveLoop "i" ];
  id_to_insn := ∅
|}.

(** A kernel in which the inames [l0] and [l1] share local axis 0. *)
Definition knl_shared_axis : kernel := {|
  iname_to_tag :=
    {[ "l0" := LocalIndexTag 0; "l1" := LocalIndexTag 0;
       "g0" := GroupIndexTag 0; "u" := UnrollTag ]};
  schedule := [ RunInstruction "a" ];
  id_to_insn := {[ "a" := mk_instruction ∅ ]}
|}.

(** The siblings inside the loop over [i] of [knl]: the instruction [a],
    the barrier and the loop over [j], with the predicates that
    [get_required_predicates] gives them. *)
Definition entries : list ScheduleIndexInfo :=
  [ mk_info 1 {[ "i" ]} {[ "p"; "q" ]};
    mk_info 2 {[ "i" ]} ∅;
    mk_info 3 {[ "i" ]} {[ "p" ]} ].

(** Three instructions that all need the predicate [p]. *)
Definition guarded_entries : list ScheduleIndexInfo :=
  [ mk_info 1 {[ "i" ]} {[ "p" ]};
    mk_info 1 {[ "i" ]} {[ "p" ]};
    mk_info 1 {[ "i" ]} {[ "p" ]} ].

(** Siblings that may be guarded on the iname [nowhere]. *)
Definition knl_nowhere : kernel := {|
  iname_to_tag := ∅;
  schedule :=
    [ EnterLoop "nowhere"; RunInstruction "a"; RunInstruction "b";
      LeaveLoop "nowhere" ];
  id_to_insn :=
    {[ "a" := mk_instruction ∅; "b" := mk_instruction ∅ ]}
|}.

Definition nowhere_entries : list ScheduleIndexInfo :=
  [ mk_info 1 {[ "nowhere" ]} ∅; mk_info 2 {[ "nowhere" ]} ∅ ].

(** One instruction inside a loop over the iname [impossible]. *)
Definition knl_impossible : kernel := {|
  iname_to_tag := ∅;
  schedule :=
    [ EnterLoop "impossible"; RunInstruction "a"; LeaveLoop "impossible" ];
  id_to_insn := {[ "a" := mk_instruction ∅ ]}
|}.

End Toy.

(** ** More of [loopy/codegen/control.py]: the sibling scan of [build_loop_nest] *)

(** Pass 1 of [build_loop_nest]: the positions of the siblings from
    [sched_index] up to the next [LeaveLoop], inner loops skipped.
    [gather_end] is the second component of what [gather_schedule_subloop]
    of [loopy.schedule] returns, the position after the loop that starts at
    the given one.  The [while] loop takes fuel. *)
Fixpoint sibling_sched_indices (fuel : nat)
    (gather_end : list sched_item → nat → nat)
    (sched : list sched_item) (sched_index : nat) : run (list nat) :=
  match fuel with
  | 0 => OutOfFuel
  | S fuel' =>
      match sched !! sched_index with
      | None => Finished (Ok [])
      | Some (LeaveLoop _) => Finished (Ok [])
      | Some (EnterLoop _) =>
          run_bind
            (sibling_sched_indices fuel' gather_end sched
               (gather_end sched sched_index))
            (λ later, Finished (Ok (sched_index :: later)))
      | Some (Barrier _) | Some (RunInstruction _) =>
          run_bind
            (sibling_sched_indices fuel' gather_end sched (S sched_index))
            (λ later, Finished (Ok (sched_index :: later)))
      end
  end.

(** Modelled from the spec: [gather_schedule_subloop] of [loopy.schedule]:
    the position just past the [LeaveLoop] that matches the [EnterLoop] at
    the given position. *)
Definition gather_schedule_subloop_end (sched : list sched_item)
    (sched_index : nat) : nat :=
  sched_index + length (subtree_items sched sched_index).

(** The code of the entries one after the other, each generated in the same
    state: what the builder gives when nothing is hoisted. *)
Fixpoint leaves_code {cb : Collaborators} (knl : kernel)
    (st : codegen_state) (entries : list ScheduleIndexInfo)
  : result (list generated) :=
  match entries with
  | [] => Ok []
  | entry :: entries' =>
      rbind (generate_code_for_sched_index knl (schedule_index entry) st)
        (λ r, rbind (leaves_code knl st entries')
                (λ rest, Ok (match r with
                             | None => rest
                             | Some c => c :: rest
                             end)))
  end.

(** What [get_required_predicates] raises at a leaf, if it raises there. *)
Definition leaf_error (knl : kernel) (item : sched_item) : option exn :=
  match item with
  | Barrier _ => None
  | RunInstruction insn_id =>
      match id_to_insn knl !! insn_id with
      | Some _ => None
      | None => Some (KeyError insn_id)
      end
  | _ => Some (RuntimeError "unexpected schedule item type")
  end.

(** A backend like the small one above, but whose bounds-check derivation
    never asks for a check. *)
Module Plain.

#[export] Instance backend : Collaborators := {|
  constraint := string;
  domain := list string;
  code_mapper := unit;
  generated := Toy.code;
  get_bounds_checks := λ _ _ _, Some [];
  find_used_inames_within := Toy.toy_used_inames;
  universe_add_constraint := λ cns, [cns];
  intersect := λ s t, s ++ t;
  is_empty := λ s, bool_decide ("false" ∈ s);
  constraint_to_code := λ _ cns, cns;
  wrap_in_if := Toy.If;
  gen_code_block := Toy.Block;
  barrier_statement := Toy.Stmt;
  generate_unroll_loop := λ _ _ _, Ok (Some (Toy.Stmt "unrolled loop"));
  generate_sequential_loop_dim_code :=
    λ _ _ _, Ok (Some (Toy.Stmt "sequential loop"));
  generate_instruction_code := λ _ _ _, Ok (Some (Toy.Stmt "instruction"))
|}.

(** The siblings inside the loop over [i] of the sample kernel, with no
    predicates required. *)
Definition entries : list ScheduleIndexInfo :=
  [ mk_info 1 {[ "i" ]} ∅; mk_info 2 {[ "i" ]} ∅; mk_info 3 {[ "i" ]} ∅ ].

End Plain.

(** ** More of [loopy/isl.py]: constraints and slabs *)

(** *** [block_shift_constraint]

    An isl constraint is known through its affine expression, the
    coefficients of which are indexed by dimension type and position, and
    through whether it states that the expression is zero or that it is not
    negative.  A dimension without an entry has coefficient 0. *)
Module AffineConstraint.

Inductive dim_type : Type :=
| dt_cst | dt_param | dt_in | dt_out | dt_set | dt_div | dt_all.

#[export] Instance dim_type_eq_dec : EqDecision dim_type.
Proof. solve_decision. Defined.

Definition dim_type_to_nat (t : dim_type) : nat :=
  match t with
  | dt_cst => 0 | dt_param => 1 | dt_in => 2 | dt_out => 3
  | dt_set => 4 | dt_div => 5 | dt_all => 6
  end.

Definition dim_type_of_nat (n : nat) : dim_type :=
  match n with
  | 0 => dt_cst | 1 => dt_param | 2 => dt_in | 3 => dt_out
  | 4 => dt_set | 5 => dt_div | _ => dt_all
  end.

#[export] Instance dim_type_countable : Countable dim_type.
Proof.
  apply (inj_countable' dim_type_to_nat dim_type_of_nat).
  by intros [].
Defined.

Record aff : Type := mk_aff {
  coefficients : gmap (dim_type * nat) Z;
  constant : Z
}.

Record constraint : Type := mk_constraint {
  is_equality : bool;
  get_aff : aff
}.

Definition equality_from_aff (a : aff) : constraint := mk_constraint true a.
Definition inequality_from_aff (a : aff) : constraint := mk_constraint false a.

Definition get_constant (cns : constraint) : Z := constant (get_aff cns).

Definition get_coefficient (cns : constraint) (type : dim_type) (pos : nat)
  : Z :=
  default 0%Z (coefficients (get_aff cns) !! (type, pos)).

Definition set_constant (cns : constraint) (v : Z) : constraint :=
  mk_constraint (is_equality cns)
    (mk_aff (coefficients (get_aff cns)) v).

(** The value of an affine expression at a point, and what a constraint
    says of a point. *)
Definition aff_value (a : aff) (x : dim_type * nat → Z) : Z :=
  (constant a
   + map_fold (λ d k acc, k * x d + acc) 0 (coefficients a))%Z.

Definition holds (cns : constraint) (x : dim_type * nat → Z) : Prop :=
  if is_equality cns
  then aff_value (get_aff cns) x = 0%Z
  else (0 ≤ aff_value (get_aff cns) x)%Z.

(** The point [x] moved by [multiple] along one dimension. *)
Definition shift_point (x : dim_type * nat → Z) (type : dim_type) (pos : nat)
    (multiple : Z) : dim_type * nat → Z :=
  λ d, if decide (d = (type, pos)) then (x d + multiple)%Z else x d.

(** [as_equality] is [None], [True] or [False]; [None != cns.is_equality()]
    holds whatever the constraint, and [None] is false as a condition. *)
Definition block_shift_constraint (cns : constraint) (type : dim_type)
    (pos : nat) (multiple : Z) (as_equality : option bool) : constraint :=
  let cns :=
    if bool_decide (as_equality ≠ Some (is_equality cns))
    then
      let factory :=
        if default false as_equality
        then equality_from_aff
        else inequality_from_aff in
      factory (get_aff cns)
    else cns in
  set_constant cns
    (get_constant cns + get_coefficient cns type pos * multiple)%Z.

(** [2*i - j + 3 >= 0] over the set dimensions 0 and 1. *)
Definition sample : constraint :=
  inequality_from_aff
    (mk_aff {[ (dt_set, 0) := 2%Z; (dt_set, 1) := (-1)%Z ]} 3%Z).

End AffineConstraint.

(** *** [make_slab]

    The operations on affine expressions and sets that [make_slab] calls,
    with what they mean: the value of an affine expression at a point, the
    coordinates of a point, and the points of a set. *)
Class IslBuildOps {isl : IslOps} : Type := {
  isl_space : Type;
  isl_dim : Type;
  isl_point : Type;
  (** [zero.get_space().get_var_dict()] *)
  get_var_dict : isl_space → gmap string isl_dim;
  zero_on_domain : isl_space → isl_aff;
  aff_add_int : isl_aff → Z → isl_aff;
  aff_sub_int : isl_aff → Z → isl_aff;
  aff_sub : isl_aff → isl_aff → isl_aff;
  aff_add_coefficient : isl_aff → isl_dim → Z → isl_aff;
  align_spaces : isl_aff → isl_aff → isl_aff;
  set_universe : isl_space → isl_set;
  (** [s.add_constraint(isl.Constraint.inequality_from_aff(a))] *)
  add_inequality_from_aff : isl_set → isl_aff → isl_set;
  aff_eval : isl_aff → isl_point → Z;
  coordinate : isl_point → isl_dim → Z;
  set_contains : isl_set → isl_point → Prop
}.

(** A bound of a slab as the caller gives it: a piecewise-affine expression,
    a Python integer, or an affine expression. *)
Inductive slab_bound {isl : IslOps} : Type :=
| BoundPwAff (pw_aff : isl_pw_aff)
| BoundInt (n : Z)
| BoundAff (a : isl_aff).

Section MakeSlab.
Context {isl : IslOps} {build : IslBuildOps}.

(** The two [isinstance] steps on a bound: a [PwAff] becomes its single
    affine expression, aligned to [zero]; an integer becomes [zero + n]. *)
Definition bound_to_aff (zero : isl_aff) (bound : slab_bound)
  : result isl_aff :=
  match bound with
  | BoundPwAff pw_aff =>
      rbind (pw_aff_to_aff pw_aff) (λ a, Ok (align_spaces a zero))
  | BoundInt n => Ok (aff_add_int zero n)
  | BoundAff a => Ok a
  end.

Definition make_slab (space : isl_space) (iname : string)
    (start stop : slab_bound) : result isl_set :=
  let zero := zero_on_domain space in
  rbind (bound_to_aff zero start) (λ start,
  rbind (bound_to_aff zero stop) (λ stop,
    match get_var_dict space !! iname with
    | None => Raise (KeyError iname)
    | Some iname_dim =>
        let iname_aff := aff_add_coefficient zero iname_dim 1 in
        Ok (add_inequality_from_aff
              (add_inequality_from_aff (set_universe space)
                 (aff_sub iname_aff start))
              (aff_sub (aff_sub_int stop 1) iname_aff))
    end)).

(** What the operations mean. *)
Record IslBuildLaws : Prop := {
  eval_zero : ∀ space p, aff_eval (zero_on_domain space) p = 0%Z;
  eval_add_int : ∀ a n p, aff_eval (aff_add_int a n) p = (aff_eval a p + n)%Z;
  eval_sub_int : ∀ a n p, aff_eval (aff_sub_int a n) p = (aff_eval a p - n)%Z;
  eval_sub : ∀ a b p,
    aff_eval (aff_sub a b) p = (aff_eval a p - aff_eval b p)%Z;
  eval_add_coefficient : ∀ a d k p,
    aff_eval (aff_add_coefficient a d k) p
    = (aff_eval a p + k * coordinate p d)%Z;
  eval_align_spaces : ∀ a b p, aff_eval (align_spaces a b) p = aff_eval a p;
  contains_add_inequality : ∀ s a p,
    set_contains (add_inequality_from_aff s a) p
    ↔ set_contains s p ∧ (0 ≤ aff_eval a p)%Z
}.

(** The value of a bound at a point, when the bound is one that [make_slab]
    accepts. *)
Definition bound_value (bound : slab_bound) (p : isl_point) : Z :=
  match bound with
  | BoundPwAff pw_aff =>
      match pw_aff_to_aff pw_aff with
      | Ok a => aff_eval a p
      | Raise _ => 0%Z
      end
  | BoundInt n => n
  | BoundAff a => aff_eval a p
  end.

(** What [make_slab] raises because of a bound, if it raises because of
    it. *)
Definition bound_error (bound : slab_bound) : option exn :=
  match bound with
  | BoundPwAff pw_aff =>
      match pw_aff_to_aff pw_aff with
      | Ok _ => None
      | Raise e => Some e
      end
  | _ => None
  end.

End MakeSlab.

(** The finite one-variable instance: a space is the finite set of points
    it has, the one variable is called [x]. *)
Module FiniteIslBuild.

#[export] Instance ops : IslBuildOps (isl:=FiniteIsl.ops) :=
  Build_IslBuildOps FiniteIsl.ops
    (gset Z) unit Z
    (λ _, {[ "x" := () ]})
    (λ _, (0%Z, 0%Z))
    (λ (a : Z * Z) n, (a.1, (a.2 + n)%Z))
    (λ (a : Z * Z) n, (a.1, (a.2 - n)%Z))
    (λ (a b : Z * Z), ((a.1 - b.1)%Z, (a.2 - b.2)%Z))
    (λ (a : Z * Z) _ k, ((a.1 + k)%Z, a.2))
    (λ (a _ : Z * Z), a)
    (λ space : gset Z, space)
    (λ (s : gset Z) (a : Z * Z),
       filter (λ x, (0 ≤ FiniteIsl.aff_eval a x)%Z) s)
    FiniteIsl.aff_eval
    (λ p _, p)
    (λ (s : gset Z) p, p ∈ s).

Definition zero_to_nine : gset Z := list_to_set (seqZ 0 10).

End FiniteIslBuild.

(** ** More of [loopy/target/ispc.py]: argument declarations *)

(** The declarators of [cgen] that the argument declarations are made of. *)
Inductive declarator : Type :=
| POD (dtype name : string)
| Value (typename name : string)
| Const (subdecl : declarator)
| Reference (subdecl : declarator)
| ISPCUniform (subdecl : declarator)
| ISPCUniformPointer (subdecl : declarator).

(** [isinstance(result, Const)] *)
Definition is_Const (d : declarator) : bool :=
  match d with Const _ => true | _ => false end.

(** [ISPCTarget.get_value_arg_decl], given what the C target's method of
    the same name returns. *)
Definition get_value_arg_decl (occa_mode : bool) (super_result : declarator)
  : declarator :=
  let result_ := super_result in
  let was_const := is_Const result_ in
  let result_ :=
    match result_ with
    | Const subdecl => subdecl
    | _ => result_
    end in
  let result_ := if occa_mode then Reference result_ else result_ in
  let result_ := if was_const then Const result_ else result_ in
  ISPCUniform result_.

(** [ISPCTarget.get_global_arg_decl] *)
Definition get_global_arg_decl (name dtype : string) (is_written : bool)
  : declarator :=
  let arg_decl := ISPCUniformPointer (POD dtype name) in
  let arg_decl := if negb is_written then Const arg_decl else arg_decl in
  ISPCUniform arg_decl.

(** ** Vocabulary for the groups and the guards of the builder *)

(** *** The whole prefix of a candidate length

    The iname set, the predicate set and the bounds checks of the first
    [k] entries, all of them intersected in. *)
Section PrefixGroups.
Context {cb : Collaborators}.




End PrefixGroups.


(** *** The code the builder gives, with what each leaf was generated in

    A backend that decides as a given backend does (the same bounds checks,
    used inames and sets) and whose generated code is the tree of what the
    builder asked for: each loop and each instruction with the implemented
    predicates of the state it was generated in, each conditional with its
    conditions. *)
#[warnings="-register-all"] Inductive traced : Type :=
| TStmt (text : string)
| TLoop (sched_index : nat) (implemented : gset string)
| TInsn (insn : instruction) (implemented : gset string)
| TBlock (body : list traced)
| TIf (conds : list string) (body : traced).

Definition tracing (cb : Collaborators) : Collaborators :=
  Build_Collaborators
    (constraint (Collaborators:=cb))
    (domain (Collaborators:=cb))
    (code_mapper (Collaborators:=cb))
    traced
    (get_bounds_checks (Collaborators:=cb))
    (find_used_inames_within (Collaborators:=cb))
    (universe_add_constraint (Collaborators:=cb))
    (intersect (Collaborators:=cb))
    (is_empty (Collaborators:=cb))
    (constraint_to_code (Collaborators:=cb))
    TIf
    TBlock
    TStmt
    (λ _ sched_index st,
       Ok (Some (TLoop sched_index (implemented_predicates st))))
    (λ _ sched_index st,
       Ok (Some (TLoop sched_index (implemented_predicates st))))
    (λ _ insn st, Ok (Some (TInsn insn (implemented_predicates st)))).

(** A tree is well guarded under a set of implemented predicates when every
    loop and instruction in it was generated in a state that implements
    exactly the predicates implemented outside together with the ones
    hoisted on the way to it, and every conditional is made of the code of
    some constraints and of a set of predicates none of which is implemented
    at that point. *)
Fixpoint well_guarded {cb : Collaborators}
    (mapper : code_mapper (Collaborators:=cb)) (implemented : gset string)
    (t : traced) : Prop :=
  match t with
  | TStmt _ => True
  | TLoop _ seen => seen = implemented
  | TInsn _ seen => seen = implemented
  | TBlock body =>
      (fix all (body : list traced) : Prop :=
         match body with
         | [] => True
         | t' :: body' => well_guarded mapper implemented t' ∧ all body'
         end) body
  | TIf conds body =>
      ∃ (bounds_checks : list (constraint (Collaborators:=cb)))
        (pred_checks : gset string),
        conds = map (constraint_to_code mapper) bounds_checks
                ++ elements pred_checks
        ∧ pred_checks ## implemented
        ∧ well_guarded mapper (implemented ∪ pred_checks) body
  end.

(** A state of the sample backend in which the predicate [q] is
    implemented. *)
Definition state_with_q : CodeGenerationState (list string) unit :=
  mk_codegen_state [] {[ "q" ]} ().

(** Two instructions that both require [p] and [q]. *)
Definition entries_p_q : list ScheduleIndexInfo :=
  [ mk_info 1 {[ "i" ]} {[ "p"; "q" ]};
    mk_info 1 {[ "i" ]} {[ "p"; "q" ]} ].

(** * Properties *)

(** ** [pw_aff_to_aff] *)

Section PwAffToAff.
Context {isl : IslOps}.

Lemma all_plain_equal_Forall (first_aff : isl_aff)
    (others : list (isl_set * isl_aff)) :
  all_plain_equal first_aff others = true
  ↔ Forall (λ p, plain_is_equal first_aff p.2 = true) others.
Proof.
  induction others as [|[s a] others IH]; simpl.
  - split; [constructor | done].
  - destruct (plain_is_equal first_aff a) eqn:E.
    + rewrite IH. split.
      * intros HF. by constructor.
      * by inversion 1.
    + split; [done |]. inversion 1; simpl in *; congruence.
Qed.

Lemma pairwise_equal_first (p : isl_set * isl_aff)
    (others : list (isl_set * isl_aff)) :
  (∀ a b, plain_is_equal a b = true → plain_is_equal b a = true) →
  (∀ a b c, plain_is_equal a b = true → plain_is_equal b c = true →
            plain_is_equal a c = true) →
  pairwise_equal (p :: others)
  ↔ Forall (λ q, plain_is_equal p.2 q.2 = true) others.
Proof.
  intros Hsym Htrans. unfold pairwise_equal. split.
  - intros Hpw. apply Forall_lookup. intros j q Hq.
    by apply (Hpw 0 (S j) p q).
  - intros HF i j a b Hij Ha Hb.
    rewrite Forall_lookup in HF.
    destruct i as [|i], j as [|j]; simpl in *; simplify_eq.
    + by eapply HF.
    + apply Hsym. by eapply HF.
    + eapply Htrans; [apply Hsym |]; by eapply HF.
Qed.

(** C9: [pw_aff_to_aff] returns the one piece of a single-piece expression,
    returns the first piece when all pieces are pairwise (plainly) equal,
    raises a [RuntimeError] when there is no piece and a
    [NotImplementedError] when two pieces differ; it fails in no other
    case.  Equality of pieces is isl's [plain_is_equal], taken to be
    symmetric and transitive. *)
Theorem pw_aff_to_aff_cases (pw_aff : isl_pw_aff) :
  (∀ a b, plain_is_equal a b = true → plain_is_equal b a = true) →
  (∀ a b c, plain_is_equal a b = true → plain_is_equal b c = true →
            plain_is_equal a c = true) →
  (∀ s a, get_pieces pw_aff = [(s, a)] → pw_aff_to_aff pw_aff = Ok a)
  ∧ (∀ s a others,
       get_pieces pw_aff = (s, a) :: others →
       pairwise_equal (get_pieces pw_aff) →
       pw_aff_to_aff pw_aff = Ok a)
  ∧ (get_pieces pw_aff = [] →
     pw_aff_to_aff pw_aff
     = Raise (RuntimeError "PwAff does not have any pieces"))
  ∧ (¬ pairwise_equal (get_pieces pw_aff) →
     ∃ msg, pw_aff_to_aff pw_aff = Raise (NotImplementedError msg))
  ∧ (is_Raise (pw_aff_to_aff pw_aff) = true
     ↔ get_pieces pw_aff = [] ∨ ¬ pairwise_equal (get_pieces pw_aff)).
Proof.
  intros Hsym Htrans.
  assert (Hnil : ¬ ¬ pairwise_equal []).
  { intros Hn. apply Hn. intros i j p q _ Hp. done. }
  assert (Hcases :
    ∀ s a others, get_pieces pw_aff = (s, a) :: others →
      (pairwise_equal (get_pieces pw_aff) ∧ pw_aff_to_aff pw_aff = Ok a)
      ∨ (¬ pairwise_equal (get_pieces pw_aff)
         ∧ ∃ msg, pw_aff_to_aff pw_aff = Raise (NotImplementedError msg))).
  { intros s a others Hp. unfold pw_aff_to_aff. rewrite Hp.
    rewrite (pairwise_equal_first (s, a) others Hsym Htrans). simpl.
    destruct (all_plain_equal a others) eqn:E.
    - left. split; [by apply all_plain_equal_Forall | by case_bool_decide].
    - right.
      assert (Hnot : ¬ Forall (λ q, plain_is_equal a q.2 = true) others).
      { rewrite <- all_plain_equal_Forall. congruence. }
      split; [done |].
      case_bool_decide as Hlen; [by eexists |].
      destruct others; [| simpl in Hlen; lia].
      exfalso. apply Hnot. constructor. }
  repeat split.
  - intros s a Hp. destruct (Hcases s a [] Hp) as [[_ ?]|[Hn _]]; [done |].
    exfalso. apply Hn. rewrite Hp. intros [|i] [|j] p q Hij Hp1 Hq1;
      simpl in *; done.
  - intros s a others Hp Hpw.
    destruct (Hcases s a others Hp) as [[_ ?]|[Hn _]]; [done | tauto].
  - intros Hp. unfold pw_aff_to_aff. by rewrite Hp.
  - intros Hn. destruct (get_pieces pw_aff) as [|[s a] others] eqn:Hp;
      [tauto |].
    destruct (Hcases s a others eq_refl) as [[? _]|[_ ?]]; [tauto | done].
  - intros Hr. destruct (get_pieces pw_aff) as [|[s a] others] eqn:Hp;
      [by left |].
    destruct (Hcases s a others eq_refl) as [[_ Hok]|[? _]]; [| by right].
    rewrite Hok in Hr. done.
  - intros [Hp|Hn].
    + unfold pw_aff_to_aff. by rewrite Hp.
    + destruct (get_pieces pw_aff) as [|[s a] others] eqn:Hp.
      * unfold pw_aff_to_aff. by rewrite Hp.
      * destruct (Hcases s a others eq_refl) as [[? _]|[_ [msg Hm]]];
          [tauto |]. by rewrite Hm.
Qed.

End PwAffToAff.

Lemma pw_aff_to_aff_cases_witness :
  pw_aff_to_aff (isl:=FiniteIsl.ops) FiniteIsl.seven_twice = Ok (0%Z, 7%Z).
Proof.
  assert (Hsym : ∀ a b : Z * Z,
            bool_decide (a = b) = true → bool_decide (b = a) = true).
  { intros a b. rewrite !bool_decide_eq_true. congruence. }
  assert (Htrans : ∀ a b c : Z * Z,
            bool_decide (a = b) = true → bool_decide (b = c) = true →
            bool_decide (a = c) = true).
  { intros a b c. rewrite !bool_decide_eq_true. congruence. }
  destruct (pw_aff_to_aff_cases (isl:=FiniteIsl.ops) FiniteIsl.seven_twice
              Hsym Htrans) as (_ & Hpw & _).
  apply (Hpw {[0%Z]} (0%Z, 7%Z) [({[4%Z]}, (0%Z, 7%Z))]); [reflexivity |].
  intros [|[|i]] [|[|j]] p q Hij Hp Hq; simpl in *; simplify_eq; done.
Defined.

(** ** [static_extremum_of_pw_aff] *)

(** With exactly one piece the function returns that piece before it looks at
    [constants_only]. *)
Lemma static_extremum_single_piece {isl : IslOps} (pw_aff : isl_pw_aff)
    (s : isl_set) (a : isl_aff) (constants_only : bool)
    (set_method : isl_pw_aff → isl_aff → isl_set) (what : string) :
  get_pieces pw_aff = [(s, a)] →
  static_extremum_of_pw_aff pw_aff constants_only set_method what = Ok a.
Proof. intros Hp. unfold static_extremum_of_pw_aff. by rewrite Hp. Qed.

(** The loop itself does what is asked of it: what it returns is one of the
    pieces, is constant when [constants_only] is set, and compares as
    required with the whole expression on the aggregate domain. *)
Lemma extremum_search_sound {isl : IslOps} (pw_aff : isl_pw_aff)
    (constants_only : bool) (set_method : isl_pw_aff → isl_aff → isl_set)
    (agg_domain : isl_set) (pieces : list (isl_set * isl_aff))
    (candidate_aff : isl_aff) :
  extremum_search pw_aff constants_only set_method agg_domain pieces
  = Some candidate_aff →
  candidate_aff ∈ pieces.*2
  ∧ (constants_only = true → is_cst candidate_aff = true)
  ∧ set_is_equal (set_method pw_aff candidate_aff) agg_domain = true.
Proof.
  induction pieces as [|[s c] pieces IH]; simpl; [done |].
  destruct (constants_only && negb (is_cst c)) eqn:Eskip.
  - intros Hs. destruct (IH Hs) as (? & ? & ?).
    split; [by right | done].
  - destruct (set_is_equal (set_method pw_aff c) agg_domain) eqn:Eeq.
    + intros [= <-]. split; [left | split; [| done]].
      intros ->. simpl in Eskip. by apply negb_false_iff in Eskip.
    + intros Hs. destruct (IH Hs) as (? & ? & ?).
      split; [by right | done].
Qed.

(** In the finite instance, a piece that the loop of [static_min_of_pw_aff]
    returns is a lower bound of the expression on its whole domain. *)
Lemma finite_static_min_lower_bound
    (pw_aff : list (gset Z * (Z * Z))) (constants_only : bool)
    (candidate_aff : Z * Z) :
  extremum_search (isl:=FiniteIsl.ops) pw_aff constants_only
    (ge_set (IslOps:=FiniteIsl.ops))
    (FiniteIsl.aggregate_domain pw_aff) pw_aff = Some candidate_aff →
  ∀ x, x ∈ FiniteIsl.aggregate_domain pw_aff →
       ∃ v, FiniteIsl.pw_eval pw_aff x = Some v
            ∧ (FiniteIsl.aff_eval candidate_aff x ≤ v)%Z.
Proof.
  intros Hs x Hx.
  apply (extremum_search_sound (isl:=FiniteIsl.ops)) in Hs as (_ & _ & Heq).
  simpl in Heq. apply bool_decide_eq_true in Heq.
  rewrite <- Heq in Hx. unfold FiniteIsl.compare_set in Hx.
  apply elem_of_filter in Hx as [Hcmp _].
  destruct (FiniteIsl.pw_eval pw_aff x) as [v|]; [| done].
  exists v. split; [done |]. apply Z.geb_le in Hcmp. lia.
Qed.

(** Likewise for [static_max_of_pw_aff] and upper bounds. *)
Lemma finite_static_max_upper_bound
    (pw_aff : list (gset Z * (Z * Z))) (constants_only : bool)
    (candidate_aff : Z * Z) :
  extremum_search (isl:=FiniteIsl.ops) pw_aff constants_only
    (le_set (IslOps:=FiniteIsl.ops))
    (FiniteIsl.aggregate_domain pw_aff) pw_aff = Some candidate_aff →
  ∀ x, x ∈ FiniteIsl.aggregate_domain pw_aff →
       ∃ v, FiniteIsl.pw_eval pw_aff x = Some v
            ∧ (v ≤ FiniteIsl.aff_eval candidate_aff x)%Z.
Proof.
  intros Hs x Hx.
  apply (extremum_search_sound (isl:=FiniteIsl.ops)) in Hs as (_ & _ & Heq).
  simpl in Heq. apply bool_decide_eq_true in Heq.
  rewrite <- Heq in Hx. unfold FiniteIsl.compare_set in Hx.
  apply elem_of_filter in Hx as [Hcmp _].
  destruct (FiniteIsl.pw_eval pw_aff x) as [v|]; [| done].
  exists v. split; [done |]. by apply Z.leb_le in Hcmp.
Qed.

(** C8, at the input on which the code departs from it: the expression [x]
    on {0, 1, 2} has one piece, which is not constant; asked for a constant
    minimum or maximum, [static_extremum_of_pw_aff] returns that piece and
    raises nothing. *)
Theorem static_extremum_single_piece_not_constant :
  get_pieces (IslOps:=FiniteIsl.ops) FiniteIsl.identity_on_0_2
  = [({[0%Z; 1%Z; 2%Z]}, (1%Z, 0%Z))]
  ∧ is_cst (IslOps:=FiniteIsl.ops) (1%Z, 0%Z) = false
  ∧ static_min_of_pw_aff (isl:=FiniteIsl.ops) FiniteIsl.identity_on_0_2 true
    = Ok (1%Z, 0%Z)
  ∧ static_max_of_pw_aff (isl:=FiniteIsl.ops) FiniteIsl.identity_on_0_2 true
    = Ok (1%Z, 0%Z).
Proof. repeat split. Qed.

(** With two pieces the same request is refused when the only dominating
    piece is not constant, and granted when it is not restricted to
    constants. *)
Example static_min_two_pieces :
  static_min_of_pw_aff (isl:=FiniteIsl.ops) FiniteIsl.ramp_then_five true
  = Raise (ValueError "a static minimum was not found for PwAff")
  ∧ static_min_of_pw_aff (isl:=FiniteIsl.ops) FiniteIsl.ramp_then_five false
    = Ok (1%Z, 0%Z)
  ∧ static_max_of_pw_aff (isl:=FiniteIsl.ops) FiniteIsl.ramp_then_five true
    = Ok (0%Z, 5%Z).
Proof. repeat split; vm_compute; reflexivity. Qed.

(** ** The local axes of the ISPC target *)



(** ** [get_required_predicates] *)

Lemma required_predicates_step_known (knl : kernel)
    (result_ : option (gset string)) (item : sched_item) :
  known_leaf knl item →
  required_predicates_step knl result_ item
  = Ok (Some (match result_ with
              | None => leaf_predicates knl item
              | Some r => r ∩ leaf_predicates knl item
              end)).
Proof.
  destruct item as [| |c|insn_id]; simpl; try done.
  - by destruct result_.
  - intros [insn Hi]. unfold required_predicates_step.
    rewrite Hi. simpl. by destruct result_.
Qed.

Lemma required_predicates_loop_Some (knl : kernel) (items : list sched_item) :
  Forall (known_leaf knl) items →
  ∀ r, ∃ r',
    required_predicates_loop knl (Some r) items = Ok (Some r')
    ∧ ∀ p, p ∈ r'
           ↔ p ∈ r ∧ ∀ item, item ∈ items → p ∈ leaf_predicates knl item.
Proof.
  induction 1 as [|item items Hk _ IH]; intros r; simpl.
  - exists r. split; [done |]. intros p. split; [| tauto].
    intros Hp. split; [done |]. intros item Hi. by apply elem_of_nil in Hi.
  - rewrite required_predicates_step_known by done. simpl.
    destruct (IH (r ∩ leaf_predicates knl item)) as (r' & Hr' & Hmem).
    exists r'. split; [done |]. intros p. rewrite Hmem.
    rewrite elem_of_intersection. split.
    + intros [[Hr Hi] Hrest]. split; [done |].
      intros item' [->|Hin]%elem_of_cons; [done | by apply Hrest].
    + intros [Hr Hall]. split; [split; [done |] |].
      * apply Hall. left.
      * intros item' Hin. apply Hall. by right.
Qed.

(** On at least one leaf the loop returns a set: the predicates that every
    leaf requires, none at all as soon as one leaf is a barrier. *)
Lemma required_predicates_of_leaves (knl : kernel) (item : sched_item)
    (items : list sched_item) :
  Forall (known_leaf knl) (item :: items) →
  ∃ r, required_predicates_loop knl None (item :: items) = Ok (Some r)
       ∧ (∀ p, p ∈ r
               ↔ ∀ leaf, leaf ∈ item :: items → p ∈ leaf_predicates knl leaf)
       ∧ ((∃ c, Barrier c ∈ item :: items) → r = ∅).
Proof.
  intros Hk. inversion Hk as [|? ? Hitem Hitems]; subst. simpl.
  rewrite required_predicates_step_known by done. simpl.
  destruct (required_predicates_loop_Some knl items Hitems
              (leaf_predicates knl item)) as (r & Hr & Hmem).
  exists r. split; [done |].
  assert (Hall : ∀ p, p ∈ r
            ↔ ∀ leaf, leaf ∈ item :: items → p ∈ leaf_predicates knl leaf).
  { intros p. rewrite Hmem. split.
    - intros [Hi Hrest] leaf [->|Hin]%elem_of_cons; [done | by apply Hrest].
    - intros Hall. split; [apply Hall; left |].
      intros leaf Hin. apply Hall. by right. }
  split; [done |].
  intros [c Hc]. apply set_eq. intros p. rewrite Hall. split; [| set_solver].
  intros Hp. apply (Hp _ Hc).
Qed.

(** C5, at the input on which the code departs from it: for a loop without
    a body the enumeration of leaves is empty, and
    [get_required_predicates] returns [None], which is not the empty set. *)
Theorem get_required_predicates_empty_subtree :
  generate_sub_sched_items (schedule Toy.knl_empty_loop) 0 = []
  ∧ get_required_predicates Toy.knl_empty_loop 0 = Ok None
  ∧ get_required_predicates Toy.knl_empty_loop 0 ≠ Ok (Some ∅)
  ∧ ∀ knl, required_predicates_loop knl None [] = Ok None.
Proof. repeat split; done. Qed.

(** On the loop over [i] of the sample kernel the result is the empty set,
    because of the barrier; on the loop over [j] it is the predicate of the
    one instruction there. *)
Example get_required_predicates_sample :
  get_required_predicates Toy.knl 0 = Ok (Some ∅)
  ∧ get_required_predicates Toy.knl 3 = Ok (Some {[ "p" ]})
  ∧ get_required_predicates Toy.knl 1 = Ok (Some {[ "p"; "q" ]}).
Proof. repeat split; vm_compute; reflexivity. Qed.

(** ** [get_admissible_conditional_inames_for] *)

Lemma admissible_conditional_inames_elem (knl : kernel) (sched_index : nat)
    (iname : string) :
  iname ∈ get_admissible_conditional_inames_for knl sched_index
  ↔ iname ∈ find_active_inames_at knl sched_index
    ∨ ∃ tag, iname_to_tag knl !! iname = Some tag
             ∧ is_HardwareParallelTag tag = true
             ∧ (has_barrier_within knl sched_index = false
                ∨ is_LocalIndexTag tag = false).
Proof.
  unfold get_admissible_conditional_inames_for.
  rewrite elem_of_union, elem_of_dom.
  apply or_iff_compat_l. unfold is_Some.
  setoid_rewrite map_lookup_filter_Some. simpl.
  unfold admissible_hw_tag. split.
  - intros (tag & Htag & Hadm). exists tag.
    apply andb_true_iff in Hadm as [Hhw Hor].
    apply orb_true_iff in Hor. rewrite !negb_true_iff in Hor. done.
  - intros (tag & Htag & Hhw & Hor). exists tag. split; [done |].
    rewrite Hhw. simpl. apply orb_true_iff. by rewrite !negb_true_iff.
Qed.

Lemma active_inames_scan_elem (items : list sched_item) (open : list string)
    (iname : string) :
  iname ∈ active_inames_scan items open →
  iname ∈ open ∨ EnterLoop iname ∈ items.
Proof.
  revert open. induction items as [|item items IH]; intros open Hin; simpl in *.
  - by left.
  - destruct item as [entered|left_|text|insn_id].
    + destruct (IH _ Hin) as [Hopen|Hlater].
      * apply elem_of_cons in Hopen as [->|Hopen]; [right; left | by left].
      * right. by right.
    + destruct (IH _ Hin) as [Hopen|Hlater].
      * left. destruct open as [|o open']; simpl in Hopen; [done | by right].
      * right. by right.
    + destruct (IH _ Hin) as [Hopen|Hlater]; [by left | right; by right].
    + destruct (IH _ Hin) as [Hopen|Hlater]; [by left | right; by right].
Qed.

Lemma active_iname_entered (knl : kernel) (sched_index : nat) (iname : string) :
  iname ∈ find_active_inames_at knl sched_index →
  ∃ i, schedule knl !! i = Some (EnterLoop iname).
Proof.
  unfold find_active_inames_at. rewrite elem_of_list_to_set. intros Hin.
  destruct (active_inames_scan_elem _ _ _ Hin) as [Hopen|Hentered].
  - by apply elem_of_nil in Hopen.
  - apply (subseteq_take sched_index (schedule knl)) in Hentered.
    apply list_elem_of_lookup in Hentered. done.
Qed.

(** C3: the admissible inames at [sched_index] are the inames active there
    plus every hardware-parallel iname of the kernel, except a local axis
    when a barrier lies within the subtree.  So an active iname, and with it
    every sequential iname (no tag, unrolled, ILP or forced sequential) the
    function starts from, is admissible with or without a barrier in the
    subtree, and no sequential iname comes in any other way; a group axis is
    always admissible; a local axis is admissible when no barrier lies within
    and, in a schedule whose loops are all over sequential inames (the only
    ones [generate_code_for_sched_index] accepts), it is not admissible when
    one does. *)
Theorem admissible_conditional_inames_spec (knl : kernel) (sched_index : nat) :
  get_admissible_conditional_inames_for knl sched_index
  = find_active_inames_at knl sched_index
    ∪ dom (filter (λ it : string * iname_tag,
                     is_HardwareParallelTag it.2 = true
                     ∧ ¬ (is_LocalIndexTag it.2 = true
                          ∧ has_barrier_within knl sched_index = true))
                  (iname_to_tag knl))
  ∧ (∀ iname,
       iname ∈ get_admissible_conditional_inames_for knl sched_index
       ↔ iname ∈ find_active_inames_at knl sched_index
         ∨ ∃ tag, iname_to_tag knl !! iname = Some tag
                  ∧ is_HardwareParallelTag tag = true
                  ∧ (has_barrier_within knl sched_index = false
                     ∨ is_LocalIndexTag tag = false))
  ∧ (∀ iname axis,
       iname_to_tag knl !! iname = Some (GroupIndexTag axis) →
       iname ∈ get_admissible_conditional_inames_for knl sched_index)
  ∧ (∀ iname axis,
       iname_to_tag knl !! iname = Some (LocalIndexTag axis) →
       has_barrier_within knl sched_index = false →
       iname ∈ get_admissible_conditional_inames_for knl sched_index)
  ∧ ((∀ i entered,
        schedule knl !! i = Some (EnterLoop entered) →
        is_sequential (iname_to_tag knl !! entered) = true) →
     ∀ iname axis,
       iname_to_tag knl !! iname = Some (LocalIndexTag axis) →
       has_barrier_within knl sched_index = true →
       iname ∉ get_admissible_conditional_inames_for knl sched_index)
  ∧ (∀ iname,
       iname ∈ find_active_inames_at knl sched_index →
       iname ∈ get_admissible_conditional_inames_for knl sched_index)
  ∧ (∀ iname,
       is_sequential (iname_to_tag knl !! iname) = true →
       iname ∈ get_admissible_conditional_inames_for knl sched_index
       ↔ iname ∈ find_active_inames_at knl sched_index).
Proof.
  split.
  { apply set_eq. intros iname.
    rewrite admissible_conditional_inames_elem.
    rewrite elem_of_union, elem_of_dom. apply or_iff_compat_l.
    unfold is_Some. setoid_rewrite map_lookup_filter_Some. simpl.
    split.
    - intros (tag & Htag & Hhw & Hor). exists tag. repeat split; [done.. |].
      intros [Hl Hb]. destruct Hor as [Hor|Hor]; congruence.
    - intros (tag & Htag & Hhw & Hnot). exists tag. repeat split; [done.. |].
      destruct (has_barrier_within knl sched_index); [| by left].
      right. destruct (is_LocalIndexTag tag); [| done].
      exfalso. by apply Hnot. }
  split; [apply admissible_conditional_inames_elem |].
  split; [| split; [| split; [| split]]].
  - intros iname axis Htag. apply admissible_conditional_inames_elem.
    right. exists (GroupIndexTag axis). auto.
  - intros iname axis Htag Hb. apply admissible_conditional_inames_elem.
    right. exists (LocalIndexTag axis). auto.
  - intros Hloops iname axis Htag Hb.
    rewrite admissible_conditional_inames_elem.
    intros [Hact|(tag & Htag' & _ & [Hb'|Hl])].
    + destruct (active_iname_entered _ _ _ Hact) as [i Hi].
      specialize (Hloops i iname Hi). by rewrite Htag in Hloops.
    + congruence.
    + rewrite Htag in Htag'. by simplify_eq.
  - intros iname Hact. apply admissible_conditional_inames_elem. by left.
  - intros iname Hseq. rewrite admissible_conditional_inames_elem.
    split; [| by left].
    intros [Hact|(tag & Htag & Hhw & _)]; [done |].
    rewrite Htag in Hseq. simpl in Hseq. by rewrite Hhw in Hseq.
Qed.

Lemma admissible_conditional_inames_spec_witness :
  "g" ∈ get_admissible_conditional_inames_for Toy.knl 2
  ∧ ("l" ∉ get_admissible_conditional_inames_for Toy.knl 2)
  ∧ "l" ∈ get_admissible_conditional_inames_for Toy.knl 1
  ∧ "i" ∈ get_admissible_conditional_inames_for Toy.knl 2
  ∧ ("j" ∈ get_admissible_conditional_inames_for Toy.knl 4
     ↔ "j" ∈ find_active_inames_at Toy.knl 4).
Proof.
  destruct (admissible_conditional_inames_spec Toy.knl 2)
    as (_ & _ & Hgroup & _ & Hbarrier & Hactive & _).
  destruct (admissible_conditional_inames_spec Toy.knl 1)
    as (_ & _ & _ & Hlocal & _).
  destruct (admissible_conditional_inames_spec Toy.knl 4)
    as (_ & _ & _ & _ & _ & _ & Hseq).
  split; [apply (Hgroup "g" 0); reflexivity |].
  split.
  { apply (Hbarrier
             ltac:(intros i entered Hi;
                   do 7 (destruct i as [|i];
                         [cbn in Hi; simplify_eq; reflexivity |]);
                   done)
             "l" 0); reflexivity. }
  split; [apply (Hlocal "l" 0); reflexivity |].
  split.
  { apply (Hactive "i"). apply (proj1 (bool_decide_eq_true _)).
    vm_compute. reflexivity. }
  apply (Hseq "j"); reflexivity.
Defined.

(** ** [remove_inames_for_shared_hw_axes] *)

Lemma record_tag_use_hw_key (knl : kernel)
    (uses : gmap (string * nat) (list string)) (iname : string) :
  record_tag_use knl uses iname
  = match hw_key knl iname with
    | Some key => <[key := default [] (uses !! key) ++ [iname]]> uses
    | None => uses
    end.
Proof.
  unfold record_tag_use, hw_key.
  destruct (iname_to_tag knl !! iname) as [tag|]; [| done].
  by destruct (is_HardwareParallelTag tag).
Qed.

Lemma tag_key_uses_lookup (knl : kernel) (inames : list string)
    (key : string * nat) :
  ∀ uses,
    foldl (record_tag_use knl) uses inames !! key
    = match filter (λ i, hw_key knl i = Some key) inames with
      | [] => uses !! key
      | users => Some (default [] (uses !! key) ++ users)
      end.
Proof.
  induction inames as [|i inames IH]; intros uses; simpl; [done |].
  rewrite IH, record_tag_use_hw_key, filter_cons.
  destruct (hw_key knl i) as [key'|] eqn:Hi.
  - destruct (decide (key' = key)) as [->|Hne].
    + rewrite decide_True by done. rewrite lookup_insert_eq. simpl.
      destruct (filter _ inames); [done |].
      by rewrite <- app_assoc.
    + rewrite decide_False by congruence.
      by rewrite lookup_insert_ne.
  - by rewrite decide_False.
Qed.

Lemma two_in_filter {A} (P : A → Prop) `{!∀ x, Decision (P x)}
    (l : list A) :
  NoDup l →
  1 < length (filter P l)
  ↔ ∃ x y, x ≠ y ∧ x ∈ l ∧ y ∈ l ∧ P x ∧ P y.
Proof.
  intros Hnd. apply (NoDup_filter P) in Hnd.
  split.
  - destruct (filter P l) as [|x [|y rest]] eqn:Hf; simpl; [lia | lia |].
    intros _. exists x, y.
    assert (Hx : x ∈ filter P l) by (rewrite Hf; left).
    assert (Hy : y ∈ filter P l) by (rewrite Hf; right; left).
    apply list_elem_of_filter in Hx as [? ?].
    apply list_elem_of_filter in Hy as [? ?].
    split; [| done].
    apply NoDup_cons in Hnd as [Hnotin _].
    intros ->. apply Hnotin. left.
  - intros (x & y & Hxy & Hx & Hy & HPx & HPy).
    assert (Hx' : x ∈ filter P l) by (by apply list_elem_of_filter).
    assert (Hy' : y ∈ filter P l) by (by apply list_elem_of_filter).
    destruct (filter P l) as [|a [|b rest]]; simpl; [| | lia].
    + by apply elem_of_nil in Hx'.
    + apply list_elem_of_singleton in Hx'.
      apply list_elem_of_singleton in Hy'. congruence.
Qed.

Lemma multi_use_keys_elem (knl : kernel) (cond_inames : gset string)
    (key : string * nat) :
  key ∈ dom (filter (λ ku : (string * nat) * list string, 1 < length ku.2)
               (foldl (record_tag_use knl) ∅ (elements cond_inames)))
  ↔ ∃ x y, x ≠ y ∧ x ∈ cond_inames ∧ y ∈ cond_inames
           ∧ hw_key knl x = Some key ∧ hw_key knl y = Some key.
Proof.
  rewrite elem_of_dom. unfold is_Some.
  setoid_rewrite map_lookup_filter_Some. simpl.
  setoid_rewrite tag_key_uses_lookup. rewrite lookup_empty. simpl.
  pose proof (two_in_filter (λ i, hw_key knl i = Some key)
                (elements cond_inames) (NoDup_elements _)) as Htwo.
  simpl in Htwo. setoid_rewrite elem_of_elements in Htwo.
  rewrite <- Htwo. split.
  - intros (users & Hu & Hlen).
    destruct (filter _ (elements cond_inames)); [done |].
    by simplify_eq.
  - intros Hlen.
    destruct (filter _ (elements cond_inames)) as [|a rest] eqn:Hf;
      [simpl in Hlen; lia |].
    by exists (a :: rest).
Qed.

Lemma in_multi_use_true (knl : kernel) (multi_use_keys : gset (string * nat))
    (iname : string) :
  in_multi_use knl multi_use_keys iname = true
  ↔ ∃ key, hw_key knl iname = Some key ∧ key ∈ multi_use_keys.
Proof.
  unfold in_multi_use, hw_key.
  destruct (iname_to_tag knl !! iname) as [tag|].
  - destruct (is_HardwareParallelTag tag); simpl.
    + rewrite bool_decide_eq_true. split; [eauto |].
      by intros (key & [= <-] & Hk).
    + split; [done | by intros (? & ? & _)].
  - split; [done | by intros (? & ? & _)].
Qed.

(** C4: [remove_inames_for_shared_hw_axes] removes exactly the inames that
    share their hardware axis key with another iname of the input, and
    returns every other iname of the input: the result is a subset of the
    input, it keeps every iname that is not tagged to a hardware axis, and
    no two inames left in it have the same key. *)
Theorem remove_inames_for_shared_hw_axes_spec (knl : kernel)
    (cond_inames : gset string) :
  (∀ iname,
     iname ∈ remove_inames_for_shared_hw_axes knl cond_inames
     ↔ iname ∈ cond_inames ∧ ¬ shares_hw_axis knl cond_inames iname)
  ∧ remove_inames_for_shared_hw_axes knl cond_inames ⊆ cond_inames
  ∧ (∀ iname,
       is_sequential (iname_to_tag knl !! iname) = true →
       iname ∈ remove_inames_for_shared_hw_axes knl cond_inames
       ↔ iname ∈ cond_inames)
  ∧ (∀ i j key,
       i ∈ remove_inames_for_shared_hw_axes knl cond_inames →
       j ∈ remove_inames_for_shared_hw_axes knl cond_inames →
       hw_key knl i = Some key → hw_key knl j = Some key → i = j).
Proof.
  assert (Hmem : ∀ iname,
     iname ∈ remove_inames_for_shared_hw_axes knl cond_inames
     ↔ iname ∈ cond_inames ∧ ¬ shares_hw_axis knl cond_inames iname).
  { intros iname. unfold remove_inames_for_shared_hw_axes.
    rewrite elem_of_difference, elem_of_filter, in_multi_use_true.
    setoid_rewrite multi_use_keys_elem. unfold shares_hw_axis.
    split.
    - intros [Hin Hnot]. split; [done |].
      intros (key & other & Hk & Ho & Hne & Hko). apply Hnot.
      split; [| done]. exists key. split; [done |].
      exists iname, other. auto.
    - intros [Hin Hnot]. split; [done |].
      intros [(key & Hk & x & y & Hxy & Hx & Hy & Hkx & Hky) _].
      apply Hnot. exists key.
      destruct (decide (x = iname)) as [->|Hx'].
      + exists y. auto.
      + exists x. auto. }
  split; [done |]. split; [| split].
  - intros iname Hi. by apply Hmem in Hi as [? _].
  - intros iname Hseq. rewrite Hmem. split; [tauto |].
    intros Hin. split; [done |].
    intros (key & other & Hk & _). unfold hw_key in Hk.
    destruct (iname_to_tag knl !! iname) as [tag|]; [| done].
    simpl in Hseq. apply negb_true_iff in Hseq. by rewrite Hseq in Hk.
  - intros i j key Hi Hj Hki Hkj.
    apply Hmem in Hi as [Hi Hni]. apply Hmem in Hj as [Hj _].
    destruct (decide (i = j)) as [|Hne]; [done |].
    exfalso. apply Hni. exists key, j. auto.
Qed.

Lemma remove_inames_for_shared_hw_axes_spec_witness :
  "u" ∈ remove_inames_for_shared_hw_axes Toy.knl_shared_axis
          {[ "l0"; "l1"; "g0"; "u"; "x" ]}
  ↔ "u" ∈ ({[ "l0"; "l1"; "g0"; "u"; "x" ]} : gset string).
Proof.
  destruct (remove_inames_for_shared_hw_axes_spec Toy.knl_shared_axis
              {[ "l0"; "l1"; "g0"; "u"; "x" ]}) as (_ & _ & Hseq & _).
  apply (Hseq "u"). reflexivity.
Defined.

(** The two inames on local axis 0 go, the others stay. *)
Example remove_inames_for_shared_hw_axes_sample :
  remove_inames_for_shared_hw_axes Toy.knl_shared_axis
    {[ "l0"; "l1"; "g0"; "u"; "x" ]}
  = {[ "g0"; "u"; "x" ]}.
Proof. vm_compute. reflexivity. Qed.

(** ** The search for hoist groups in [build_insn_group] *)

Section HoistSearch.
Context {cb : Collaborators}.


Lemma worth_recording_true (k : nat) (bounds_checks : option (list constraint))
    (preds : gset string) :
  worth_recording k bounds_checks preds = true
  ↔ (∃ cs, bounds_checks = Some cs ∧ cs ≠ [])
    ∨ bounds_checks = None ∨ preds ≠ ∅ ∨ k = 1.
Proof.
  unfold worth_recording, nonempty_set.
  rewrite !orb_true_iff, negb_true_iff, bool_decide_eq_false,
    bool_decide_eq_true.
  destruct bounds_checks as [[|c cs]|]; simpl; split;
    try (intros [[?|?]|?]); try (intros [[? [? ?]]|[?|[?|?]]]);
    simplify_eq; eauto 6.
Qed.

Lemma candidate_lengths_S (done_group_lengths : gset nat) (m : nat) :
  candidate_lengths done_group_lengths (S m)
  = candidate_lengths done_group_lengths m
    ++ (if bool_decide (S m ∈ done_group_lengths) then [] else [S m]).
Proof.
  unfold candidate_lengths. rewrite seq_S, filter_app. f_equal.
  simpl. rewrite filter_cons, filter_nil.
  case_bool_decide; [by rewrite decide_False by tauto |].
  by rewrite decide_True.
Qed.

Lemma candidate_lengths_elem (done_group_lengths : gset nat) (m k : nat) :
  k ∈ candidate_lengths done_group_lengths m
  ↔ 1 ≤ k ≤ m ∧ k ∉ done_group_lengths.
Proof.
  unfold candidate_lengths. rewrite list_elem_of_filter, list_elem_of_In, in_seq.
  split; intros [? ?]; split; done || lia.
Qed.

Lemma candidate_lengths_NoDup (done_group_lengths : gset nat) (m : nat) :
  NoDup (candidate_lengths done_group_lengths m).
Proof. apply NoDup_filter, NoDup_ListNoDup, List.seq_NoDup. Qed.

Lemma considered_S (entries : list ScheduleIndexInfo)
    (done_group_lengths : gset nat) (m : nat) (entry : ScheduleIndexInfo) :
  entries !! m = Some entry →
  considered entries done_group_lengths (S m)
  = considered entries done_group_lengths m
    ++ (if bool_decide (S m ∈ done_group_lengths) then [] else [entry]).
Proof.
  intros He. unfold considered. rewrite candidate_lengths_S, omap_app.
  f_equal. case_bool_decide; [done |].
  simpl. rewrite Nat.sub_0_r, He. done.
Qed.


Lemma filter_all_gset (P : string → Prop) `{!∀ x, Decision (P x)}
    (s : gset string) :
  (∀ x, P x) → filter P s = s.
Proof.
  intros HP. apply set_eq. intros x. rewrite elem_of_filter.
  split; [tauto | by split].
Qed.

(** The state of the loop once it is through with candidate length [m]. *)
Lemma grow_loop_invariant (knl : kernel) (st : codegen_state)
    (si_entry : ScheduleIndexInfo) (entries : list ScheduleIndexInfo)
    (done_group_lengths : gset nat) (m : nat) :
  m ≤ length entries →
  foldl (grow_step knl st entries done_group_lengths)
        (admissible_cond_inames si_entry,
         required_predicates si_entry ∖ implemented_predicates st, [])
        (seq 1 m)
  = (group_iname_set si_entry entries done_group_lengths m,
     group_pred_set st si_entry entries done_group_lengths m,
     filter (λ h, recorded h = true)
            (map (group_hoist knl st si_entry entries done_group_lengths)
                 (candidate_lengths done_group_lengths m))).
Proof.
  induction m as [|m IH]; intros Hm.
  - simpl. unfold group_iname_set, group_pred_set, considered. simpl.
    rewrite !filter_all_gset by (intros; constructor). done.
  - rewrite seq_S, foldl_app, IH by lia. simpl.
    destruct (lookup_lt_is_Some_2 entries m) as [entry He]; [lia |].
    unfold grow_step.
    rewrite candidate_lengths_S, map_app, filter_app.
    rewrite Nat.sub_0_r, He.
    assert (Hcons := considered_S entries done_group_lengths m entry He).
    case_bool_decide as Hdone.
    + rewrite app_nil_r in Hcons. simpl. rewrite filter_nil, app_nil_r.
      unfold group_iname_set, group_pred_set. by rewrite Hcons.
    + assert (Hin : group_iname_set si_entry entries done_group_lengths m
                    ∩ admissible_cond_inames entry
                    = group_iname_set si_entry entries done_group_lengths
                        (S m)).
      { unfold group_iname_set. rewrite Hcons. apply set_eq. intros x.
        rewrite elem_of_intersection, !elem_of_filter, Forall_app,
          Forall_singleton. tauto. }
      assert (Hpr : group_pred_set st si_entry entries done_group_lengths m
                    ∩ required_predicates entry
                    = group_pred_set st si_entry entries done_group_lengths
                        (S m)).
      { unfold group_pred_set. rewrite Hcons. apply set_eq. intros x.
        rewrite elem_of_intersection, !elem_of_difference, !elem_of_filter,
          Forall_app, Forall_singleton. tauto. }
      rewrite Hin, Hpr. simpl. rewrite filter_cons, filter_nil.
      set (h := group_hoist knl st si_entry entries done_group_lengths (S m)).
      change (worth_recording (S m) _ _) with (recorded h).
      change (S m, _, _) with h.
      destruct (recorded h) eqn:Hw.
      * by rewrite decide_True.
      * by rewrite decide_False, app_nil_r.
Qed.

Lemma find_hoists_closed_form (knl : kernel) (st : codegen_state)
    (si_entry : ScheduleIndexInfo) (entries : list ScheduleIndexInfo)
    (done_group_lengths : gset nat) :
  find_hoists knl st si_entry entries done_group_lengths
  = filter (λ h, recorded h = true)
      (map (group_hoist knl st si_entry entries done_group_lengths)
           (candidate_lengths done_group_lengths (length entries))).
Proof. unfold find_hoists. by rewrite grow_loop_invariant. Qed.

Lemma find_hoists_elem (knl : kernel) (st : codegen_state)
    (si_entry : ScheduleIndexInfo) (entries : list ScheduleIndexInfo)
    (done_group_lengths : gset nat) (h : hoist) :
  h ∈ find_hoists knl st si_entry entries done_group_lengths
  ↔ (1 ≤ hoist_length h ∧ hoist_length h ≤ length entries)
    ∧ (hoist_length h ∉ done_group_lengths)
    ∧ h = group_hoist knl st si_entry entries done_group_lengths
            (hoist_length h)
    ∧ recorded h = true.
Proof.
  rewrite find_hoists_closed_form, list_elem_of_filter, list_elem_of_fmap.
  setoid_rewrite candidate_lengths_elem. split.
  - intros [Hrec (k & -> & Hk & Hnd)]. done.
  - intros (Hk & Hnd & Hh & Hrec). split; [done |].
    exists (hoist_length h). done.
Qed.

Lemma max_hoist_fold (rest : list hoist) :
  ∀ h,
    let best :=
      foldl (λ best h', if hoist_length best <? hoist_length h'
                        then h' else best) h rest in
    best ∈ h :: rest
    ∧ ∀ x, x ∈ h :: rest → hoist_length x ≤ hoist_length best.
Proof.
  induction rest as [|h' rest IH]; intros h; simpl.
  - split; [left |]. by intros x ->%list_elem_of_singleton.
  - destruct (Nat.ltb_spec (hoist_length h) (hoist_length h')) as [Hlt|Hge];
      [destruct (IH h') as [Hin Hmax] | destruct (IH h) as [Hin Hmax]];
      simpl in *.
    + split; [by right |].
      intros x [->|Hx]%elem_of_cons; [| by apply Hmax].
      specialize (Hmax h' ltac:(left)). lia.
    + split.
      * apply elem_of_cons in Hin as [->|?]; [left | right; by right].
      * intros x [->|[->|Hx]%elem_of_cons]%elem_of_cons.
        -- apply Hmax. left.
        -- specialize (Hmax h ltac:(left)). lia.
        -- apply Hmax. by right.
Qed.

Lemma max_hoist_spec (found_hoists : list hoist) :
  match max_hoist found_hoists with
  | None => found_hoists = []
  | Some chosen =>
      chosen ∈ found_hoists
      ∧ ∀ h, h ∈ found_hoists → hoist_length h ≤ hoist_length chosen
  end.
Proof.
  destruct found_hoists as [|h rest]; simpl; [done |].
  apply max_hoist_fold.
Qed.

End HoistSearch.

Section BuilderProperties.
Context {cb : Collaborators}.



End BuilderProperties.

(** ** Running the builder: fuel, termination, and the code of a group *)

Section BuilderRuns.
Context {cb : Collaborators}.

Lemma run_bind_finished {A B} (c : run A) (k : A → run B) :
  ran_out (run_bind c k) = false →
  ∃ r, c = Finished r ∧ ∀ a, r = Ok a → ran_out (k a) = false.
Proof.
  destruct c as [[a|e]|]; simpl; [| | done].
  - intros Hk. exists (Ok a). split; [done |]. by intros ? [= <-].
  - intros _. exists (Raise e). split; [done |]. by intros ? [=].
Qed.

Lemma run_bind_not_ran_out {A B} (c : run A) (k : A → run B) :
  ran_out c = false → (∀ a, ran_out (k a) = false) →
  ran_out (run_bind c k) = false.
Proof. destruct c as [[a|e]|]; simpl; auto. Qed.

Lemma chosen_length_bounds (knl : kernel) (st : codegen_state)
    (si_entry : ScheduleIndexInfo) (entries : list ScheduleIndexInfo)
    (done_group_lengths : gset nat) (group_length : nat)
    (bounds_checks : option (list constraint)) (pred_checks : gset string) :
  max_hoist (find_hoists knl st si_entry entries done_group_lengths)
  = Some (group_length, bounds_checks, pred_checks) →
  (1 ≤ group_length ∧ group_length ≤ length entries)
  ∧ group_length ∉ done_group_lengths.
Proof.
  intros Hmax.
  pose proof (max_hoist_spec
                (find_hoists knl st si_entry entries done_group_lengths))
    as Hspec.
  rewrite Hmax in Hspec. destruct Hspec as [Hin _].
  apply find_hoists_elem in Hin as (Hk & Hnd & _). done.
Qed.

Lemma emit_group_not_ran_out
    (recurse : list ScheduleIndexInfo → codegen_state → gset nat
               → run (list generated))
    (knl : kernel) (entries : list ScheduleIndexInfo) (st : codegen_state)
    (done_group_lengths : gset nat) (sched_index group_length : nat)
    (bounds_checks : list constraint) (pred_checks : gset string) :
  (group_length ≠ 1 →
   ran_out (recurse (take group_length entries)
              (narrowed_state st bounds_checks pred_checks)
              (done_group_lengths ∪ {[group_length]})) = false) →
  ran_out (emit_group recurse knl entries st done_group_lengths sched_index
             group_length bounds_checks pred_checks) = false.
Proof.
  intros Hrec. unfold emit_group.
  destruct (group_is_empty bounds_checks); [done |].
  apply run_bind_not_ran_out; [| done].
  case_bool_decide; [done | by apply Hrec].
Qed.

Lemma emit_group_ext
    (recurse recurse' : list ScheduleIndexInfo → codegen_state → gset nat
                        → run (list generated))
    (knl : kernel) (entries : list ScheduleIndexInfo) (st : codegen_state)
    (done_group_lengths : gset nat) (sched_index group_length : nat)
    (bounds_checks : list constraint) (pred_checks : gset string) :
  ran_out (emit_group recurse knl entries st done_group_lengths sched_index
             group_length bounds_checks pred_checks) = false →
  (∀ es st' done', ran_out (recurse es st' done') = false →
                   recurse' es st' done' = recurse es st' done') →
  emit_group recurse' knl entries st done_group_lengths sched_index
    group_length bounds_checks pred_checks
  = emit_group recurse knl entries st done_group_lengths sched_index
      group_length bounds_checks pred_checks.
Proof.
  unfold emit_group. intros Hran Hext.
  destruct (group_is_empty bounds_checks); [done |].
  case_bool_decide; [done |].
  apply run_bind_finished in Hran as (r & Hr & _).
  rewrite Hext; [done |]. by rewrite Hr.
Qed.

(** Fuel above twice the number of entries, and one more when the full
    length has not been tried yet, is enough: the inner call on a group has
    its own length among the done ones, and the call on the remainder has
    fewer entries. *)
Lemma build_insn_group_enough_fuel (fuel : nat) :
  ∀ (knl : kernel) (entries : list ScheduleIndexInfo) (st : codegen_state)
    (done_group_lengths : gset nat),
    2 * length entries
    + (if bool_decide (length entries ∈ done_group_lengths) then 0 else 1)
    < fuel →
    ran_out (build_insn_group fuel knl entries st done_group_lengths) = false.
Proof.
  induction fuel as [|fuel IH]; intros knl entries st done_ Hfuel; [lia |].
  simpl. destruct entries as [|si_entry rest]; [done |].
  destruct (max_hoist _) as [[[g [cs|]] preds]|] eqn:Hmax; [| done | done].
  apply chosen_length_bounds in Hmax as [[Hg1 Hg2] Hnd].
  set (entries := si_entry :: rest) in *.
  apply run_bind_not_ran_out.
  - apply emit_group_not_ran_out. intros Hne. apply IH.
    rewrite length_take, Nat.min_l by done.
    rewrite bool_decide_eq_true_2
      by (apply elem_of_union_r, elem_of_singleton; done).
    destruct (decide (g = length entries)) as [Heq|Hlt].
    + rewrite bool_decide_eq_false_2 in Hfuel by congruence. lia.
    + repeat case_bool_decide; lia.
  - intros result_. apply run_bind_not_ran_out; [| done].
    apply IH. rewrite length_drop.
    repeat case_bool_decide; lia.
Qed.

(** More fuel does not change the outcome of a run that has not run out. *)
Lemma build_insn_group_fuel_stable (fuel : nat) :
  ∀ (knl : kernel) (entries : list ScheduleIndexInfo) (st : codegen_state)
    (done_group_lengths : gset nat) (fuel' : nat),
    ran_out (build_insn_group fuel knl entries st done_group_lengths) = false →
    fuel ≤ fuel' →
    build_insn_group fuel' knl entries st done_group_lengths
    = build_insn_group fuel knl entries st done_group_lengths.
Proof.
  induction fuel as [|fuel IH]; intros knl entries st done_ fuel' Hran Hle;
    [done |].
  destruct fuel' as [|fuel']; [lia |].
  simpl in *. destruct entries as [|si_entry rest]; [done |].
  destruct (max_hoist _) as [[[g [cs|]] preds]|]; [| done | done].
  apply run_bind_finished in Hran as (r & Hr & Hk).
  assert (Hgroup :
    emit_group (build_insn_group fuel' knl) knl (si_entry :: rest) st done_
      (schedule_index si_entry) g cs preds = Finished r).
  { rewrite <- Hr. apply emit_group_ext; [by rewrite Hr |].
    intros es st' done' Hes. apply IH; [done | lia]. }
  rewrite Hgroup, Hr.
  destruct r as [result_|e]; [| done]. simpl.
  specialize (Hk result_ eq_refl).
  apply run_bind_finished in Hk as (r' & Hr' & _).
  rewrite IH; [done | by rewrite Hr' | lia].
Qed.

Lemma run_build_insn_group_fuel (knl : kernel)
    (entries : list ScheduleIndexInfo) (st : codegen_state)
    (done_group_lengths : gset nat) (fuel : nat) :
  enough_fuel entries ≤ fuel →
  build_insn_group fuel knl entries st done_group_lengths
  = run_build_insn_group knl entries st done_group_lengths.
Proof.
  intros Hfuel. unfold run_build_insn_group, enough_fuel in *.
  apply build_insn_group_fuel_stable; [| done].
  apply build_insn_group_enough_fuel. case_bool_decide; lia.
Qed.

Lemma candidate_lengths_done_above (done_group_lengths : gset nat)
    (m n : nat) :
  m < n →
  candidate_lengths (done_group_lengths ∪ {[n]}) m
  = candidate_lengths done_group_lengths m.
Proof.
  induction m as [|m IH]; intros Hm; [done |].
  rewrite !candidate_lengths_S, IH by lia. f_equal.
  assert (Hiff : S m ∈ done_group_lengths ∪ {[n]}
                 ↔ S m ∈ done_group_lengths).
  { rewrite elem_of_union, elem_of_singleton. split; [| tauto].
    intros [?|?]; [done | lia]. }
  by rewrite (bool_decide_ext _ _ Hiff).
Qed.

(** Trying the full length uses up one of the lengths that are left. *)
Lemma lengths_left_full_group (entries : list ScheduleIndexInfo)
    (done_group_lengths : gset nat) :
  entries ≠ [] →
  length entries ∉ done_group_lengths →
  lengths_left entries (done_group_lengths ∪ {[length entries]})
  < lengths_left entries done_group_lengths.
Proof.
  intros Hne Hnd. unfold lengths_left.
  destruct (length entries) as [|m] eqn:Hlen.
  { by destruct entries. }
  rewrite !candidate_lengths_S, candidate_lengths_done_above by lia.
  rewrite bool_decide_eq_true_2
    by (apply elem_of_union_r, elem_of_singleton; done).
  rewrite bool_decide_eq_false_2 by done.
  rewrite !length_app. simpl. lia.
Qed.

Lemma combine_checks_cons (cns : constraint) (bounds_checks : list constraint) :
  combine_checks (cns :: bounds_checks)
  = Some (foldl (λ s c, intersect s (universe_add_constraint c))
                (universe_add_constraint cns) bounds_checks).
Proof.
  unfold combine_checks. simpl.
  generalize (universe_add_constraint cns).
  induction bounds_checks as [|c cs IH]; intros s; simpl; [done |].
  apply IH.
Qed.

Lemma run_bind_ret {A} (c : run A) :
  run_bind c (λ a, Finished (Ok a)) = c.
Proof. by destruct c as [[a|e]|]. Qed.

Lemma group_is_empty_true (bounds_checks : list constraint) :
  group_is_empty bounds_checks = true
  ↔ ∃ cns others,
      bounds_checks = cns :: others
      ∧ is_empty (foldl (λ s c, intersect s (universe_add_constraint c))
                        (universe_add_constraint cns) others) = true.
Proof.
  unfold group_is_empty. destruct bounds_checks as [|cns others].
  - simpl. split; [done | by intros (? & ? & ? & _)].
  - rewrite combine_checks_cons. split.
    + intros He. by exists cns, others.
    + by intros (? & ? & [= <- <-] & He).
Qed.

(** C2: the bounds checks of the chosen group are combined by intersecting
    the universe sets restricted by each of them.  When that set is empty,
    the group gives no code, and the builder returns what it returns for the
    remaining entries alone.  Dead or not, the call for the remaining entries
    gets the caller's own state and an empty [done_group_lengths], and its
    code follows the group's. *)
Theorem dead_group_and_remainder (knl : kernel) (st : codegen_state)
    (si_entry : ScheduleIndexInfo) (rest : list ScheduleIndexInfo)
    (done_group_lengths : gset nat) (group_length : nat)
    (bounds_checks : list constraint) (pred_checks : gset string) :
  max_hoist (find_hoists knl st si_entry (si_entry :: rest)
               done_group_lengths)
  = Some (group_length, Some bounds_checks, pred_checks) →
  let entries := si_entry :: rest in
  let group fuel :=
    emit_group (build_insn_group fuel knl) knl entries st done_group_lengths
      (schedule_index si_entry) group_length bounds_checks pred_checks in
  (group_is_empty bounds_checks = true
   ↔ ∃ cns others,
       bounds_checks = cns :: others
       ∧ is_empty (foldl (λ s c, intersect s (universe_add_constraint c))
                         (universe_add_constraint cns) others) = true)
  ∧ (group_is_empty bounds_checks = true →
     (∀ fuel, group fuel = Finished (Ok []))
     ∧ run_build_insn_group knl entries st done_group_lengths
       = run_build_insn_group knl (drop group_length entries) st ∅)
  ∧ (∀ fuel,
       build_insn_group (S fuel) knl entries st done_group_lengths
       = run_bind (group fuel)
           (λ result_,
              run_bind
                (build_insn_group fuel knl (drop group_length entries) st ∅)
                (λ rest_code, Finished (Ok (result_ ++ rest_code)))))
  ∧ (∀ code,
       run_build_insn_group knl entries st done_group_lengths
       = Finished (Ok code) →
       ∃ group_code rest_code,
         code = group_code ++ rest_code
         ∧ group (enough_fuel entries - 1) = Finished (Ok group_code)
         ∧ run_build_insn_group knl (drop group_length entries) st ∅
           = Finished (Ok rest_code)).
Proof.
  intros Hmax entries group.
  assert (Hstep : ∀ fuel,
       build_insn_group (S fuel) knl entries st done_group_lengths
       = run_bind (group fuel)
           (λ result_,
              run_bind
                (build_insn_group fuel knl (drop group_length entries) st ∅)
                (λ rest_code, Finished (Ok (result_ ++ rest_code))))).
  { intros fuel. unfold entries. simpl. by rewrite Hmax. }
  apply chosen_length_bounds in Hmax as [[Hg1 Hg2] _].
  assert (Hrest :
    build_insn_group (enough_fuel entries - 1) knl
      (drop group_length entries) st ∅
    = run_build_insn_group knl (drop group_length entries) st ∅).
  { apply run_build_insn_group_fuel. unfold enough_fuel.
    rewrite length_drop. fold entries in Hg2. lia. }
  assert (Hrun :
    run_build_insn_group knl entries st done_group_lengths
    = build_insn_group (S (enough_fuel entries - 1)) knl entries st
        done_group_lengths).
  { unfold run_build_insn_group. f_equal. unfold enough_fuel. lia. }
  split; [apply group_is_empty_true |]. split; [| split; [done |]].
  - intros Hempty.
    assert (Hdead : ∀ fuel, group fuel = Finished (Ok [])).
    { intros fuel. unfold group, emit_group. by rewrite Hempty. }
    split; [done |].
    rewrite Hrun, Hstep, Hdead. simpl. by rewrite run_bind_ret.
  - intros code. rewrite Hrun, Hstep, Hrest.
    destruct (group (enough_fuel entries - 1)) as [[group_code|e]|];
      simpl; [| done | done].
    destruct (run_build_insn_group knl (drop group_length entries) st ∅)
      as [[rest_code|e]|]; simpl; [| done | done].
    intros [= <-]. by exists group_code, rest_code.
Qed.

(** C6: [build_insn_group] terminates on every list of entries and every
    [done_group_lengths]: with fuel for twice the number of entries and two
    more it finishes, and more fuel gives the same outcome.  The chosen
    length is at least 1, at most the number of entries and not among the
    done lengths; so the call on the remaining entries has fewer entries, and
    the call inside a group has a prefix of the entries and a strictly
    larger [done_group_lengths], grown by a length that is at most the
    number of entries: either the prefix is shorter, or it is the whole
    list and one candidate length less is left to try. *)
Theorem build_insn_group_terminates (knl : kernel)
    (entries : list ScheduleIndexInfo) (st : codegen_state)
    (done_group_lengths : gset nat) :
  (∃ r, ∀ fuel, enough_fuel entries ≤ fuel →
                build_insn_group fuel knl entries st done_group_lengths
                = Finished r)
  ∧ (∀ si_entry rest group_length bounds_checks pred_checks,
       entries = si_entry :: rest →
       max_hoist (find_hoists knl st si_entry entries done_group_lengths)
       = Some (group_length, bounds_checks, pred_checks) →
       (1 ≤ group_length ∧ group_length ≤ length entries)
       ∧ length (drop group_length entries) < length entries
       ∧ take group_length entries `prefix_of` entries
       ∧ done_group_lengths ⊂ done_group_lengths ∪ {[group_length]}
       ∧ (length (take group_length entries) < length entries
          ∨ take group_length entries = entries
            ∧ lengths_left entries (done_group_lengths ∪ {[group_length]})
              < lengths_left entries done_group_lengths)).
Proof.
  split.
  - destruct (run_build_insn_group knl entries st done_group_lengths)
      as [r|] eqn:Hr.
    + exists r. intros fuel Hfuel.
      by rewrite run_build_insn_group_fuel.
    + unfold run_build_insn_group in Hr.
      assert (Hran :
        ran_out (build_insn_group (enough_fuel entries) knl entries st
                   done_group_lengths) = false).
      { apply build_insn_group_enough_fuel. unfold enough_fuel.
        case_bool_decide; lia. }
      by rewrite Hr in Hran.
  - intros si_entry rest g bcs preds -> Hmax.
    apply chosen_length_bounds in Hmax as [[Hg1 Hg2] Hnd].
    set (entries := si_entry :: rest) in *.
    split; [done |]. split; [rewrite length_drop; lia |].
    split; [apply prefix_take |]. split.
    + split; [apply union_subseteq_l |].
      intros Hsub. apply Hnd, Hsub, elem_of_union_r, elem_of_singleton.
      done.
    + destruct (decide (g = length entries)) as [->|Hlt].
      * right. split; [by apply take_ge |].
        by apply lengths_left_full_group.
      * left. rewrite length_take. lia.
Qed.

End BuilderRuns.

(** ** The guards of the builder and the predicates already implemented *)

Section ChosenPredicates.
Context {cb : Collaborators}.

Lemma chosen_predicates_outstanding (knl : kernel) (st : codegen_state)
    (si_entry : ScheduleIndexInfo) (entries : list ScheduleIndexInfo)
    (done_group_lengths : gset nat) (group_length : nat)
    (bounds_checks : option (list constraint)) (pred_checks : gset string) :
  max_hoist (find_hoists knl st si_entry entries done_group_lengths)
  = Some (group_length, bounds_checks, pred_checks) →
  pred_checks
  = group_pred_set st si_entry entries done_group_lengths group_length
  ∧ pred_checks ## implemented_predicates st.
Proof.
  intros Hmax.
  pose proof (max_hoist_spec
                (find_hoists knl st si_entry entries done_group_lengths))
    as Hspec.
  rewrite Hmax in Hspec. destruct Hspec as [Hin _].
  apply find_hoists_elem in Hin as (_ & _ & Heq & _).
  unfold group_hoist, hoist_length in Heq. simpl in Heq.
  assert (Hp : pred_checks
               = group_pred_set st si_entry entries done_group_lengths
                   group_length) by congruence.
  split; [done |].
  intros p Hp1 Hp2. revert Hp1. rewrite Hp. unfold group_pred_set.
  rewrite elem_of_difference. tauto.
Qed.

Lemma narrowed_state_implemented (st : codegen_state)
    (bounds_checks : list constraint) (pred_checks : gset string) :
  implemented_predicates (narrowed_state st bounds_checks pred_checks)
  = implemented_predicates st ∪ pred_checks.
Proof.
  unfold narrowed_state, nonempty_set.
  assert (Hnew : implemented_predicates
                   (match combine_checks bounds_checks with
                    | Some check_set => state_intersect st check_set
                    | None => st
                    end) = implemented_predicates st).
  { by destruct (combine_checks bounds_checks). }
  case_bool_decide as Hempty; simpl.
  - rewrite Hnew, Hempty. by rewrite (right_id_L ∅ (∪)).
  - by rewrite Hnew.
Qed.

Lemma narrowed_state_mapper (st : codegen_state)
    (bounds_checks : list constraint) (pred_checks : gset string) :
  c_code_mapper (narrowed_state st bounds_checks pred_checks)
  = c_code_mapper st.
Proof.
  unfold narrowed_state.
  destruct (nonempty_set pred_checks), (combine_checks bounds_checks); done.
Qed.

Lemma run_bind_Ok {A B} (c : run A) (k : A → run B) (b : B) :
  run_bind c k = Finished (Ok b) →
  ∃ a, c = Finished (Ok a) ∧ k a = Finished (Ok b).
Proof. destruct c as [[a|e]|]; simpl; [by exists a | done | done]. Qed.

End ChosenPredicates.

Section GuardsOfTheBuilder.
Context {cb : Collaborators}.

Lemma well_guarded_block (mapper : code_mapper) (implemented : gset string)
    (body : list traced) :
  well_guarded (cb:=cb) mapper implemented (TBlock body)
  ↔ Forall (well_guarded (cb:=cb) mapper implemented) body.
Proof.
  induction body as [|t body IH].
  - simpl. split; [constructor | done].
  - rewrite Forall_cons, <- IH. done.
Qed.

(** A leaf generated in a state records the implemented predicates of that
    state. *)
Lemma traced_leaf_well_guarded (knl : kernel) (sched_index : nat)
    (st : codegen_state) (leaf : traced) :
  generate_code_for_sched_index (cb:=tracing cb) knl sched_index st
  = Ok (Some leaf) →
  well_guarded (cb:=cb) (c_code_mapper st) (implemented_predicates st) leaf.
Proof.
  unfold generate_code_for_sched_index.
  destruct (schedule knl !! sched_index) as [[iname|iname|text|insn_id]|];
    [| done | | | done].
  - destruct (iname_to_tag knl !! iname) as [[]|]; simpl;
      intros Heq; by simplify_eq.
  - simpl. intros Heq. by simplify_eq.
  - destruct (id_to_insn knl !! insn_id) as [insn|]; simpl;
      intros Heq; by simplify_eq.
Qed.

(** Whatever the builder returns is well guarded under the implemented
    predicates of the state it was called with. *)
Lemma traced_build_well_guarded (knl : kernel) (fuel : nat) :
  ∀ (entries : list ScheduleIndexInfo) (st : codegen_state)
    (done_group_lengths : gset nat) (code : list traced),
    build_insn_group (cb:=tracing cb) fuel knl entries st done_group_lengths
    = Finished (Ok code) →
    Forall (well_guarded (cb:=cb) (c_code_mapper st) (implemented_predicates st)) code.
Proof.
  induction fuel as [|fuel IH]; intros entries st done_ code Hrun; [done |].
  simpl in Hrun. destruct entries as [|si_entry rest].
  { simplify_eq. constructor. }
  destruct (max_hoist _) as [[[g [cs|]] preds]|] eqn:Hmax; [| done | done].
  apply (chosen_predicates_outstanding (cb:=tracing cb)) in Hmax
    as [_ Hdisj].
  apply run_bind_Ok in Hrun as (group_code & Hgroup & Hrun).
  apply run_bind_Ok in Hrun as (rest_code & Hrest & Hrun).
  simplify_eq. apply Forall_app. split; [| by apply IH in Hrest].
  clear Hrest rest_code. unfold emit_group in Hgroup.
  destruct (group_is_empty cs).
  { simplify_eq. constructor. }
  apply run_bind_Ok in Hgroup as (inner & Hinner & Hwrap).
  assert (Hguarded :
    Forall (well_guarded (cb:=cb) (c_code_mapper st)
              (implemented_predicates st ∪ preds)) inner).
  { rewrite <- (narrowed_state_implemented st cs preds).
    rewrite <- (narrowed_state_mapper st cs preds).
    destruct (bool_decide (g = 1)).
    - destruct (generate_code_for_sched_index (cb:=tracing cb) knl
                  (schedule_index si_entry) (narrowed_state st cs preds))
        as [[leaf|]|e] eqn:Hleaf; simpl in Hinner; simplify_eq.
      + constructor; [| constructor].
        exact (traced_leaf_well_guarded knl (schedule_index si_entry)
                 (narrowed_state (cb:=cb) st cs preds) leaf Hleaf).
      + constructor.
    - exact (IH _ (narrowed_state (cb:=cb) st cs preds) _ _ Hinner). }
  clear Hinner. unfold wrap_group in Hwrap.
  destruct (nonempty_list cs || nonempty_set preds) eqn:Hchecks;
    simplify_eq.
  - constructor; [| constructor].
    exists cs, preds. split; [done |]. split; [done |].
    by apply well_guarded_block.
  - apply orb_false_iff in Hchecks as [_ Hnone].
    unfold nonempty_set in Hnone. apply negb_false_iff in Hnone.
    apply bool_decide_eq_true in Hnone. subst preds.
    by rewrite (right_id_L ∅ (∪)) in Hguarded.
Qed.

(** C7: a predicate that the state has implemented is not emitted again as
    a guard.  The predicates of the chosen hoist are the ones that the
    entries of the group all require, less the implemented ones; so they
    are disjoint from those, the guards are the code of the bounds checks
    followed by these predicates, and the narrowed state implements the old
    predicates together with the hoisted ones.  And in the code that the
    builder returns, traced as a tree, every conditional guards on
    predicates of which none is implemented by the state of the call or
    hoisted by a conditional around it, and every loop and instruction is
    generated in a state that implements exactly the predicates of the call
    together with the ones hoisted around it. *)
Theorem hoisted_predicates_are_new (knl : kernel) (st : codegen_state)
    (si_entry : ScheduleIndexInfo) (rest : list ScheduleIndexInfo)
    (done_group_lengths : gset nat) :
  (∀ group_length bounds_checks pred_checks,
     max_hoist (find_hoists knl st si_entry (si_entry :: rest)
                  done_group_lengths)
     = Some (group_length, bounds_checks, pred_checks) →
     pred_checks
     = filter (λ p, Forall (λ e, p ∈ required_predicates e)
                      (considered (si_entry :: rest) done_group_lengths
                         group_length))
              (required_predicates si_entry)
       ∖ implemented_predicates st
     ∧ pred_checks ## implemented_predicates st
     ∧ (∀ cs, implemented_predicates (narrowed_state st cs pred_checks)
              = implemented_predicates st ∪ pred_checks)
     ∧ (∀ cs, conditionals st cs pred_checks
              = map (constraint_to_code (c_code_mapper st)) cs
                ++ elements pred_checks)
     ∧ (∀ p, p ∈ elements pred_checks → p ∉ implemented_predicates st))
  ∧ ran_out (run_build_insn_group (cb:=tracing cb) knl (si_entry :: rest)
               st done_group_lengths) = false
  ∧ (∀ fuel code,
       build_insn_group (cb:=tracing cb) fuel knl (si_entry :: rest) st
         done_group_lengths
       = Finished (Ok code) →
       Forall (well_guarded (cb:=cb) (c_code_mapper st) (implemented_predicates st))
              code).
Proof.
  split; [| split].
  - intros group_length bounds_checks pred_checks Hmax.
    apply chosen_predicates_outstanding in Hmax as [Hp Hdisj].
    split; [done |]. split; [done |].
    split; [intros cs; apply narrowed_state_implemented |].
    split; [done |].
    intros p Hpe Himpl. apply (Hdisj p); [| done].
    by apply elem_of_elements.
  - apply (build_insn_group_enough_fuel (cb:=tracing cb)).
    unfold enough_fuel. case_bool_decide; lia.
  - intros fuel code. apply traced_build_well_guarded.
Qed.

End GuardsOfTheBuilder.



Lemma hoisted_predicates_are_new_witness :
  run_build_insn_group (cb:=tracing Toy.backend) Toy.knl entries_p_q
    state_with_q ∅
  = Finished (Ok [TIf ["0 <= i < n_i"; "p"]
                    (TBlock [TInsn (mk_instruction {[ "p"; "q" ]})
                               {[ "p"; "q" ]};
                             TInsn (mk_instruction {[ "p"; "q" ]})
                               {[ "p"; "q" ]}])])
  ∧ Forall (well_guarded (cb:=Toy.backend) () {[ "q" ]})
      [TIf ["0 <= i < n_i"; "p"]
         (TBlock [TInsn (mk_instruction {[ "p"; "q" ]}) {[ "p"; "q" ]};
                  TInsn (mk_instruction {[ "p"; "q" ]}) {[ "p"; "q" ]}])]
  ∧ ({[ "p" ]} : gset string) ## {[ "q" ]}.
Proof.
  destruct (hoisted_predicates_are_new (cb:=Toy.backend) Toy.knl
              state_with_q (mk_info 1 {[ "i" ]} {[ "p"; "q" ]})
              (drop 1 entries_p_q) ∅)
    as (Hchosen & _ & Hguarded).
  assert (Hrun :
    run_build_insn_group (cb:=tracing Toy.backend) Toy.knl entries_p_q
      state_with_q ∅
    = Finished (Ok [TIf ["0 <= i < n_i"; "p"]
                      (TBlock [TInsn (mk_instruction {[ "p"; "q" ]})
                                 {[ "p"; "q" ]};
                               TInsn (mk_instruction {[ "p"; "q" ]})
                                 {[ "p"; "q" ]}])])).
  { vm_compute. reflexivity. }
  split; [exact Hrun |].
  split; [exact (Hguarded _ _ Hrun) |].
  apply (Hchosen 2 (Some ["0 <= i < n_i"]) {[ "p" ]}).
  vm_compute. reflexivity.
Defined.

Lemma dead_group_and_remainder_witness :
  run_build_insn_group (cb:=Toy.backend) Toy.knl_nowhere Toy.nowhere_entries
    Toy.initial_state ∅
  = run_build_insn_group (cb:=Toy.backend) Toy.knl_nowhere
      (drop 2 Toy.nowhere_entries) Toy.initial_state ∅.
Proof.
  assert (Hmax :
    max_hoist (find_hoists (cb:=Toy.backend) Toy.knl_nowhere
                 Toy.initial_state (mk_info 1 {[ "nowhere" ]} ∅)
                 (mk_info 1 {[ "nowhere" ]} ∅
                  :: drop 1 Toy.nowhere_entries) ∅)
    = Some (2, Some ["false"], ∅)).
  { vm_compute. reflexivity. }
  destruct (dead_group_and_remainder (cb:=Toy.backend) Toy.knl_nowhere
              Toy.initial_state (mk_info 1 {[ "nowhere" ]} ∅)
              (drop 1 Toy.nowhere_entries) ∅ 2 ["false"] ∅ Hmax)
    as (_ & Hdead & _).
  apply Hdead. vm_compute. reflexivity.
Defined.

Lemma build_insn_group_terminates_witness :
  (∃ r, build_insn_group (cb:=Toy.backend) 8 Toy.knl Toy.entries
          Toy.initial_state ∅ = Finished r)
  ∧ length (drop 3 Toy.entries) < length Toy.entries.
Proof.
  destruct (build_insn_group_terminates (cb:=Toy.backend) Toy.knl
              Toy.entries Toy.initial_state ∅) as [[r Hr] Hcalls].
  split.
  - exists r. apply Hr. vm_compute. lia.
  - apply (Hcalls (mk_info 1 {[ "i" ]} {[ "p"; "q" ]}) (drop 1 Toy.entries)
             3 (Some ["0 <= i < n_i"]) ∅); [reflexivity |].
    vm_compute. reflexivity.
Defined.

(** The builder on the sample kernel: one guard on [i] around the three
    siblings, and inside it a guard for the predicates of each sibling that
    has some. *)
Example build_insn_group_sample :
  run_build_insn_group (cb:=Toy.backend) Toy.knl Toy.entries
    Toy.initial_state ∅
  = Finished
      (Ok [Toy.If ["0 <= i < n_i"]
             (Toy.Block
                [Toy.If ["q"; "p"] (Toy.Block [Toy.Stmt "instruction"]);
                 Toy.Stmt "barrier(CLK_LOCAL_MEM_FENCE)";
                 Toy.If ["p"] (Toy.Block [Toy.Stmt "unrolled loop"])])]).
Proof. vm_compute. reflexivity. Qed.

(** Three siblings with the same bounds and the same predicate share one
    conditional. *)
Example build_insn_group_shared_guard :
  run_build_insn_group (cb:=Toy.backend) Toy.knl Toy.guarded_entries
    Toy.initial_state ∅
  = Finished
      (Ok [Toy.If ["0 <= i < n_i"; "p"]
             (Toy.Block
                [Toy.Stmt "instruction"; Toy.Stmt "instruction";
                 Toy.Stmt "instruction"])]).
Proof. vm_compute. reflexivity. Qed.

(** When the bounds checks come back as [None] and that hoist is chosen, the
    loop over them raises. *)
Example build_insn_group_none_bounds :
  run_build_insn_group (cb:=Toy.backend) Toy.knl_impossible
    [ mk_info 1 {[ "impossible" ]} ∅ ] Toy.initial_state ∅
  = Finished (Raise (TypeError "'NoneType' object is not iterable")).
Proof. vm_compute. reflexivity. Qed.

(** * Further properties *)

(** ** [remove_inames_for_shared_hw_axes], applied again and to subsets *)

Lemma remove_inames_elem (knl : kernel) (cond_inames : gset string)
    (iname : string) :
  iname ∈ remove_inames_for_shared_hw_axes knl cond_inames
  ↔ iname ∈ cond_inames ∧ ¬ shares_hw_axis knl cond_inames iname.
Proof.
  unfold remove_inames_for_shared_hw_axes.
  rewrite elem_of_difference, elem_of_filter, in_multi_use_true.
  setoid_rewrite multi_use_keys_elem. unfold shares_hw_axis.
  split.
  - intros [Hin Hnot]. split; [done |].
    intros (key & other & Hk & Ho & Hne & Hko). apply Hnot.
    split; [| done]. exists key. split; [done |].
    exists iname, other. auto.
  - intros [Hin Hnot]. split; [done |].
    intros [(key & Hk & x & y & Hxy & Hx & Hy & Hkx & Hky) _].
    apply Hnot. exists key.
    destruct (decide (x = iname)) as [->|Hx'].
    + exists y. auto.
    + exists x. auto.
Qed.

Lemma shares_hw_axis_mono (knl : kernel) (smaller larger : gset string)
    (iname : string) :
  smaller ⊆ larger →
  shares_hw_axis knl smaller iname → shares_hw_axis knl larger iname.
Proof.
  intros Hsub (key & other & Hk & Ho & Hne & Hko).
  exists key, other. auto.
Qed.

(** X1: removing the inames of shared hardware axes a second time changes
    nothing. *)
Theorem remove_inames_for_shared_hw_axes_idempotent (knl : kernel)
    (cond_inames : gset string) :
  remove_inames_for_shared_hw_axes knl
    (remove_inames_for_shared_hw_axes knl cond_inames)
  = remove_inames_for_shared_hw_axes knl cond_inames.
Proof.
  apply set_eq. intros iname. rewrite (remove_inames_elem knl (_ knl _)).
  split; [tauto |].
  intros Hin. split; [done |]. intros Hshare.
  apply remove_inames_elem in Hin as [_ Hnot]. apply Hnot.
  eapply shares_hw_axis_mono; [| done].
  intros x Hx. by apply remove_inames_elem in Hx as [? _].
Qed.

(** X2: an iname that survives in a set of candidates survives in every
    subset of the candidates that has it. *)
Theorem remove_inames_for_shared_hw_axes_subset (knl : kernel)
    (smaller larger : gset string) (iname : string) :
  smaller ⊆ larger →
  iname ∈ smaller →
  iname ∈ remove_inames_for_shared_hw_axes knl larger →
  iname ∈ remove_inames_for_shared_hw_axes knl smaller.
Proof.
  intros Hsub Hin [_ Hnot]%remove_inames_elem.
  apply remove_inames_elem. split; [done |].
  intros Hshare. apply Hnot. by eapply shares_hw_axis_mono.
Qed.

Lemma remove_inames_for_shared_hw_axes_subset_witness :
  "g0" ∈ remove_inames_for_shared_hw_axes Toy.knl_shared_axis
           {[ "g0"; "l0" ]}.
Proof.
  apply (remove_inames_for_shared_hw_axes_subset Toy.knl_shared_axis
           {[ "g0"; "l0" ]} {[ "l0"; "l1"; "g0"; "u"; "x" ]} "g0").
  - apply (bool_decide_unpack _). vm_compute. reflexivity.
  - apply (bool_decide_unpack _). vm_compute. reflexivity.
  - apply (bool_decide_unpack _). vm_compute. reflexivity.
Defined.

(** X3: the function returns its argument unchanged exactly when no two
    inames of the argument are tagged to the same hardware axis. *)
Theorem remove_inames_for_shared_hw_axes_fixed (knl : kernel)
    (cond_inames : gset string) :
  remove_inames_for_shared_hw_axes knl cond_inames = cond_inames
  ↔ ∀ i j key, i ∈ cond_inames → j ∈ cond_inames →
               hw_key knl i = Some key → hw_key knl j = Some key → i = j.
Proof.
  split.
  - intros Heq i j key Hi Hj Hki Hkj.
    destruct (decide (i = j)) as [|Hne]; [done |].
    rewrite <- Heq in Hi. apply remove_inames_elem in Hi as [_ Hnot].
    exfalso. apply Hnot. exists key, j. auto.
  - intros Hinj. apply set_eq. intros iname. rewrite remove_inames_elem.
    split; [tauto |]. intros Hin. split; [done |].
    intros (key & other & Hk & Ho & Hne & Hko).
    apply Hne. by apply (Hinj other iname key).
Qed.

(** ** [get_required_predicates]: failures, and growing the subtree *)

Lemma required_predicates_loop_app (knl : kernel) (items later : list sched_item) :
  ∀ r,
    required_predicates_loop knl r (items ++ later)
    = rbind (required_predicates_loop knl r items)
            (λ r', required_predicates_loop knl r' later).
Proof.
  induction items as [|item items IH]; intros r; simpl; [done |].
  destruct (required_predicates_step knl r item) as [r'|e]; simpl; [| done].
  apply IH.
Qed.

Lemma required_predicates_step_error (knl : kernel)
    (r : option (gset string)) (item : sched_item) (e : exn) :
  leaf_error knl item = Some e →
  required_predicates_step knl r item = Raise e.
Proof.
  unfold leaf_error, required_predicates_step.
  destruct item as [| | |insn_id]; simpl; try by intros [= <-].
  destruct (id_to_insn knl !! insn_id); [done | by intros [= <-]].
Qed.

Lemma known_leaf_no_error (knl : kernel) (item : sched_item) :
  known_leaf knl item ↔ leaf_error knl item = None.
Proof.
  destruct item as [| | |insn_id]; simpl; try done.
  unfold is_Some. destruct (id_to_insn knl !! insn_id); split; try done.
  - by eexists.
  - by intros [? ?].
Qed.

Lemma required_predicates_loop_known (knl : kernel) (items : list sched_item) :
  Forall (known_leaf knl) items →
  ∀ r, ∃ r', required_predicates_loop knl r items = Ok r'.
Proof.
  induction 1 as [|item items Hk _ IH]; intros r; simpl; [by eexists |].
  rewrite required_predicates_step_known by done. simpl. apply IH.
Qed.

Lemma required_predicates_loop_Ok_known (knl : kernel)
    (items : list sched_item) :
  ∀ r, is_Ok (required_predicates_loop knl r items) = true →
       Forall (known_leaf knl) items.
Proof.
  induction items as [|item items IH]; intros r Hok; [constructor |].
  simpl in Hok.
  destruct (leaf_error knl item) as [e|] eqn:He.
  - by rewrite (required_predicates_step_error _ _ _ e) in Hok.
  - apply known_leaf_no_error in He. constructor; [done |].
    rewrite required_predicates_step_known in Hok by done.
    simpl in Hok. by eapply IH.
Qed.

(** X4: the loop of [get_required_predicates] returns a value exactly when
    every leaf it is given is a barrier or an instruction that
    [kernel.id_to_insn] knows; otherwise it raises what the first other leaf
    makes it raise: a [KeyError] with the identifier of an unknown
    instruction, a [RuntimeError] for any other item. *)
Theorem required_predicates_loop_failures (knl : kernel)
    (items : list sched_item) (r : option (gset string)) :
  (is_Ok (required_predicates_loop knl r items) = true
   ↔ Forall (known_leaf knl) items)
  ∧ (∀ good bad later e,
       items = good ++ bad :: later →
       Forall (known_leaf knl) good →
       leaf_error knl bad = Some e →
       required_predicates_loop knl r items = Raise e).
Proof.
  assert (Hbad : ∀ good bad later e r0,
       Forall (known_leaf knl) good →
       leaf_error knl bad = Some e →
       required_predicates_loop knl r0 (good ++ bad :: later) = Raise e).
  { intros good bad later e r0 Hgood Hbad.
    rewrite required_predicates_loop_app.
    destruct (required_predicates_loop_known knl good Hgood r0) as [r' ->].
    simpl. by rewrite (required_predicates_step_error _ _ _ e). }
  split.
  - split.
    + apply required_predicates_loop_Ok_known.
    + intros Hk.
      by destruct (required_predicates_loop_known knl items Hk r) as [r' ->].
  - intros good bad later e -> Hgood He. by apply Hbad.
Qed.

Lemma required_predicates_loop_failures_witness :
  required_predicates_loop Toy.knl None
    [ RunInstruction "a"; RunInstruction "missing"; Barrier "" ]
  = Raise (KeyError "missing").
Proof.
  destruct (required_predicates_loop_failures Toy.knl
              [ RunInstruction "a"; RunInstruction "missing"; Barrier "" ]
              None) as [_ Hbad].
  apply (Hbad [ RunInstruction "a" ] (RunInstruction "missing")
           [ Barrier "" ]); [reflexivity | | reflexivity].
  constructor; [| constructor]. simpl. by eexists.
Defined.

(** X5: more leaves can only take predicates away: what the loop returns for
    a list of leaves followed by more leaves is contained in what it returns
    for the list alone. *)
Theorem required_predicates_loop_shrinks (knl : kernel)
    (items later : list sched_item) (r1 r2 : gset string) :
  required_predicates_loop knl None items = Ok (Some r1) →
  required_predicates_loop knl None (items ++ later) = Ok (Some r2) →
  r2 ⊆ r1.
Proof.
  intros H1 H2. rewrite required_predicates_loop_app, H1 in H2. simpl in H2.
  assert (Hk : Forall (known_leaf knl) later).
  { apply (required_predicates_loop_Ok_known knl later (Some r1)).
    by rewrite H2. }
  destruct (required_predicates_loop_Some knl later Hk r1) as (r' & Hr' & Hmem).
  rewrite Hr' in H2. simplify_eq.
  intros p Hp. by apply Hmem in Hp as [? _].
Qed.

Lemma required_predicates_loop_shrinks_witness :
  ({[ "p" ]} : gset string) ⊆ {[ "p"; "q" ]}.
Proof.
  apply (required_predicates_loop_shrinks Toy.knl
           [ RunInstruction "a" ] [ RunInstruction "b" ]);
    vm_compute; reflexivity.
Defined.

(** ** The found hoists: their order, and how their predicates shrink *)

Lemma filter_seq_increasing (Q : nat → Prop) `{!∀ k, Decision (Q k)}
    (start len : nat) :
  ∀ i j x y,
    i < j →
    filter Q (seq start len) !! i = Some x →
    filter Q (seq start len) !! j = Some y →
    x < y.
Proof.
  induction len as [|len IH]; intros i j x y Hij Hi Hj; [done |].
  rewrite seq_S, filter_app in Hi, Hj.
  assert (Hbelow : ∀ k z, filter Q (seq start len) !! k = Some z →
                          z < start + len).
  { intros k z Hz. apply list_elem_of_lookup_2, list_elem_of_filter in Hz
      as [_ Hz]. apply list_elem_of_In, in_seq in Hz. lia. }
  assert (Hlast : ∀ k z, filter Q [start + len] !! k = Some z →
                         k = 0 ∧ z = start + len).
  { intros k z. rewrite filter_cons, filter_nil.
    destruct (decide (Q (start + len))); [| done].
    destruct k; simpl; [by intros [= <-] | done]. }
  apply lookup_app_Some in Hi as [Hi|[Hilen Hi]];
    apply lookup_app_Some in Hj as [Hj|[Hjlen Hj]].
  - by apply (IH i j).
  - apply Hlast in Hj as [_ ->]. by apply (Hbelow i).
  - apply lookup_lt_Some in Hj. lia.
  - apply Hlast in Hi as [Hi _]. apply Hlast in Hj as [Hj _]. lia.
Qed.

Section FoundHoists.
Context {cb : Collaborators}.

Lemma hoist_lengths_filter (knl : kernel) (st : codegen_state)
    (si_entry : ScheduleIndexInfo) (entries : list ScheduleIndexInfo)
    (done_group_lengths : gset nat) (lengths : list nat) :
  map hoist_length
    (filter (λ h, recorded h = true)
       (map (group_hoist knl st si_entry entries done_group_lengths)
            lengths))
  = filter (λ k, recorded (group_hoist knl st si_entry entries
                             done_group_lengths k) = true)
           lengths.
Proof.
  induction lengths as [|k lengths IH]; [done |].
  simpl. rewrite !filter_cons.
  destruct (decide (recorded (group_hoist _ _ _ _ _ k) = true));
    simpl; by rewrite IH.
Qed.

Lemma found_hoist_lengths (knl : kernel) (st : codegen_state)
    (si_entry : ScheduleIndexInfo) (entries : list ScheduleIndexInfo)
    (done_group_lengths : gset nat) :
  map hoist_length
    (find_hoists knl st si_entry entries done_group_lengths)
  = filter (λ k, recorded (group_hoist knl st si_entry entries
                             done_group_lengths k) = true
                 ∧ k ∉ done_group_lengths)
           (seq 1 (length entries)).
Proof.
  rewrite find_hoists_closed_form, hoist_lengths_filter.
  unfold candidate_lengths. apply list_filter_filter.
Qed.

(** X6: the found hoists come in strictly increasing order of their group
    length, so the one [max] picks is the last one found. *)
Theorem found_hoists_increasing (knl : kernel) (st : codegen_state)
    (si_entry : ScheduleIndexInfo) (entries : list ScheduleIndexInfo)
    (done_group_lengths : gset nat) :
  let found_hoists :=
    find_hoists knl st si_entry entries done_group_lengths in
  (∀ i j h1 h2,
     i < j → found_hoists !! i = Some h1 → found_hoists !! j = Some h2 →
     hoist_length h1 < hoist_length h2)
  ∧ max_hoist found_hoists = last found_hoists.
Proof.
  intros found_hoists.
  assert (Hinc : ∀ i j h1 h2,
     i < j → found_hoists !! i = Some h1 → found_hoists !! j = Some h2 →
     hoist_length h1 < hoist_length h2).
  { intros i j h1 h2 Hij H1 H2.
    apply (filter_seq_increasing
             (λ k, recorded (group_hoist knl st si_entry entries
                               done_group_lengths k) = true
                   ∧ k ∉ done_group_lengths)
             1 (length entries) i j); [done | |];
      rewrite <- found_hoist_lengths, list_lookup_fmap;
      fold found_hoists; by rewrite ?H1, ?H2. }
  split; [done |].
  pose proof (max_hoist_spec found_hoists) as Hmax.
  destruct (max_hoist found_hoists) as [chosen|]; [| by rewrite Hmax].
  destruct Hmax as [Hin Hle].
  apply list_elem_of_lookup in Hin as [i Hi].
  destruct (last found_hoists) as [final|] eqn:Hlast.
  - f_equal. rewrite last_lookup in Hlast.
    destruct (decide (i = pred (length found_hoists))) as [->|Hne];
      [congruence |].
    assert (Hlt : i < pred (length found_hoists)).
    { apply lookup_lt_Some in Hi. lia. }
    pose proof (Hinc _ _ _ _ Hlt Hi Hlast) as Hless.
    assert (Hfin : final ∈ found_hoists)
      by (by eapply list_elem_of_lookup_2).
    specialize (Hle final Hfin). lia.
  - apply last_None in Hlast. by rewrite Hlast in Hi.
Qed.

Lemma considered_elem (entries : list ScheduleIndexInfo)
    (done_group_lengths : gset nat) (m : nat) (entry : ScheduleIndexInfo) :
  entry ∈ considered entries done_group_lengths m
  ↔ ∃ k, (1 ≤ k ∧ k ≤ m) ∧ (k ∉ done_group_lengths)
         ∧ entries !! (k - 1) = Some entry.
Proof.
  unfold considered. rewrite list_elem_of_omap.
  setoid_rewrite candidate_lengths_elem. split.
  - intros (k & [Hk Hnd] & He). by exists k.
  - intros (k & Hk & Hnd & He). by exists k.
Qed.

Lemma group_pred_set_antitone (st : codegen_state)
    (si_entry : ScheduleIndexInfo) (entries : list ScheduleIndexInfo)
    (done_group_lengths : gset nat) (m1 m2 : nat) :
  m1 ≤ m2 →
  group_pred_set st si_entry entries done_group_lengths m2
  ⊆ group_pred_set st si_entry entries done_group_lengths m1.
Proof.
  intros Hm p. unfold group_pred_set.
  rewrite !elem_of_difference, !elem_of_filter, !Forall_forall.
  intros [[Hall Hreq] Himpl]. split; [split; [| done] | done].
  intros entry (k & [Hk1 Hk2] & Hnd & He)%considered_elem.
  apply Hall, considered_elem. exists k. split; [lia | done].
Qed.

(** X7: among the found hoists, a longer group has fewer predicates to
    hoist: the predicates of the longer one are among those of the
    shorter. *)
Theorem found_hoists_predicates_shrink (knl : kernel) (st : codegen_state)
    (si_entry : ScheduleIndexInfo) (entries : list ScheduleIndexInfo)
    (done_group_lengths : gset nat) (h1 h2 : hoist) :
  h1 ∈ find_hoists knl st si_entry entries done_group_lengths →
  h2 ∈ find_hoists knl st si_entry entries done_group_lengths →
  hoist_length h1 ≤ hoist_length h2 →
  hoist_preds h2 ⊆ hoist_preds h1.
Proof.
  intros (_ & _ & H1 & _)%find_hoists_elem (_ & _ & H2 & _)%find_hoists_elem
    Hle.
  rewrite H1, H2. unfold hoist_preds, group_hoist. simpl.
  by apply group_pred_set_antitone.
Qed.

End FoundHoists.

Lemma found_hoists_predicates_shrink_witness :
  hoist_preds (cb:=Toy.backend) (3, Some ["0 <= i < n_i"], ∅)
  ⊆ hoist_preds (cb:=Toy.backend)
      (1, Some ["0 <= i < n_i"], {[ "p"; "q" ]}).
Proof.
  apply (found_hoists_predicates_shrink (cb:=Toy.backend) Toy.knl
           Toy.initial_state (mk_info 1 {[ "i" ]} {[ "p"; "q" ]})
           Toy.entries ∅
           (1, Some ["0 <= i < n_i"], {[ "p"; "q" ]})
           (3, Some ["0 <= i < n_i"], ∅)).
  - apply (bool_decide_unpack _). vm_compute. reflexivity.
  - apply (bool_decide_unpack _). vm_compute. reflexivity.
  - vm_compute. lia.
Defined.

Lemma found_hoists_increasing_witness :
  max_hoist (find_hoists (cb:=Toy.backend) Toy.knl Toy.initial_state
               (mk_info 1 {[ "i" ]} {[ "p"; "q" ]}) Toy.entries ∅)
  = Some (3, Some ["0 <= i < n_i"], ∅).
Proof.
  destruct (found_hoists_increasing (cb:=Toy.backend) Toy.knl
              Toy.initial_state (mk_info 1 {[ "i" ]} {[ "p"; "q" ]})
              Toy.entries ∅) as [_ Hlast].
  rewrite Hlast. vm_compute. reflexivity.
Defined.


(** ** What the builder returns when there is nothing to hoist, and when
    nothing it calls fails *)

Section BuilderOutcomes.
Context {cb : Collaborators}.

Lemma first_hoist_found (knl : kernel) (st : codegen_state)
    (si_entry : ScheduleIndexInfo) (rest : list ScheduleIndexInfo)
    (done_group_lengths : gset nat) :
  1 ∉ done_group_lengths →
  group_hoist knl st si_entry (si_entry :: rest) done_group_lengths 1
  ∈ find_hoists knl st si_entry (si_entry :: rest) done_group_lengths.
Proof.
  intros Hone. apply find_hoists_elem.
  split; [unfold hoist_length; simpl; lia |].
  split; [done |]. split; [done |].
  apply worth_recording_true. auto.
Qed.

Lemma chosen_hoist (knl : kernel) (st : codegen_state)
    (si_entry : ScheduleIndexInfo) (rest : list ScheduleIndexInfo)
    (done_group_lengths : gset nat) :
  1 ∉ done_group_lengths →
  ∃ g, max_hoist (find_hoists knl st si_entry (si_entry :: rest)
                    done_group_lengths)
       = Some (group_hoist knl st si_entry (si_entry :: rest)
                 done_group_lengths g)
       ∧ (1 ≤ g ∧ g ≤ S (length rest)) ∧ (g ∉ done_group_lengths)
       ∧ recorded (group_hoist knl st si_entry (si_entry :: rest)
                     done_group_lengths g) = true.
Proof.
  intros Hone. pose proof (first_hoist_found knl st si_entry rest _ Hone)
    as Hfirst.
  pose proof (max_hoist_spec (find_hoists knl st si_entry (si_entry :: rest)
                                done_group_lengths)) as Hmax.
  destruct (max_hoist _) as [chosen|].
  - destruct Hmax as [Hin _].
    apply find_hoists_elem in Hin as (Hk & Hnd & Heq & Hrec).
    exists (hoist_length chosen). rewrite <- Heq. done.
  - rewrite Hmax in Hfirst. by apply elem_of_nil in Hfirst.
Qed.

Lemma narrowed_state_nothing (st : codegen_state) :
  narrowed_state st [] ∅ = st.
Proof.
  unfold narrowed_state, nonempty_set. simpl.
  by rewrite bool_decide_eq_true_2.
Qed.

Lemma plain_sequence_fuel (knl : kernel) (st : codegen_state) (fuel : nat) :
  (∀ impl_domain check_inames,
     get_bounds_checks knl impl_domain check_inames = Some []) →
  ∀ entries,
    Forall (λ e, required_predicates e ⊆ implemented_predicates st) entries →
    length entries < fuel →
    build_insn_group fuel knl entries st ∅
    = Finished (leaves_code knl st entries).
Proof.
  intros Hbounds. induction fuel as [|fuel IH]; intros entries Hpreds Hfuel;
    [lia |].
  destruct entries as [|si_entry rest]; [done |].
  inversion Hpreds as [|? ? Hsi Hrest]; subst.
  destruct (chosen_hoist knl st si_entry rest ∅ (not_elem_of_empty 1))
    as (g & Hmax & Hg & _ & Hrec).
  assert (Hb : group_bounds knl st si_entry (si_entry :: rest) ∅ g = Some []).
  { unfold group_bounds, bounds_check_cache. by case_bool_decide. }
  assert (Hp : group_pred_set st si_entry (si_entry :: rest) ∅ g = ∅).
  { apply set_eq. intros p. unfold group_pred_set.
    rewrite elem_of_difference, elem_of_filter. split.
    - intros [[_ Hreq] Hnot]. exfalso. by apply Hnot, Hsi.
    - intros Hin. by apply not_elem_of_empty in Hin. }
  unfold group_hoist in Hmax, Hrec. rewrite Hb, Hp in Hmax, Hrec.
  unfold recorded, worth_recording, nonempty_set, hoist_length, hoist_bounds,
    hoist_preds in Hrec. simpl in Hrec.
  rewrite bool_decide_eq_true_2 in Hrec by done. simpl in Hrec.
  apply bool_decide_eq_true in Hrec. subst g.
  simpl. rewrite Hmax. unfold emit_group. simpl.
  rewrite narrowed_state_nothing. unfold wrap_group, nonempty_set. simpl.
  rewrite bool_decide_eq_true_2 by done. simpl. rewrite drop_0.
  rewrite IH by (done || simpl in Hfuel; lia).
  destruct (generate_code_for_sched_index knl (schedule_index si_entry) st)
    as [[c|]|e]; simpl; [| | done];
    by destruct (leaves_code knl st rest).
Qed.

(** X8: when the bounds-check derivation never asks for a check and every
    entry's required predicates are already implemented, the builder hoists
    nothing: it returns the code of the entries in order, each generated in
    the caller's state, without any conditional around it. *)
Theorem nothing_to_hoist (knl : kernel) (st : codegen_state)
    (entries : list ScheduleIndexInfo) :
  (∀ impl_domain check_inames,
     get_bounds_checks knl impl_domain check_inames = Some []) →
  Forall (λ e, required_predicates e ⊆ implemented_predicates st) entries →
  run_build_insn_group knl entries st ∅
  = Finished (leaves_code knl st entries).
Proof.
  intros Hbounds Hpreds. unfold run_build_insn_group.
  apply plain_sequence_fuel; [done | done |]. unfold enough_fuel. lia.
Qed.

Lemma never_raises_fuel (knl : kernel) (fuel : nat) :
  (∀ impl_domain check_inames,
     get_bounds_checks knl impl_domain check_inames ≠ None) →
  ∀ (entries : list ScheduleIndexInfo) (st : codegen_state)
    (done_group_lengths : gset nat),
    1 ∉ done_group_lengths →
    (∀ e st', e ∈ entries →
       is_Ok (generate_code_for_sched_index knl (schedule_index e) st')
       = true) →
    2 * length entries
    + (if bool_decide (length entries ∈ done_group_lengths) then 0 else 1)
    < fuel →
    ∃ code,
      build_insn_group fuel knl entries st done_group_lengths
      = Finished (Ok code).
Proof.
  intros Hbounds.
  induction fuel as [|fuel IH]; intros entries st done_ Hone Hleaf Hfuel;
    [lia |].
  destruct entries as [|si_entry rest]; [by eexists |].
  destruct (chosen_hoist knl st si_entry rest done_ Hone)
    as (g & Hmax & [Hg1 Hg2] & Hnd & _).
  set (entries := si_entry :: rest) in *.
  change (S (length rest)) with (length entries) in Hg2.
  destruct (group_bounds knl st si_entry entries done_ g) as [cs|] eqn:Hb.
  2: { unfold group_bounds, bounds_check_cache in Hb.
       case_bool_decide; [done | by apply Hbounds in Hb]. }
  unfold group_hoist in Hmax. rewrite Hb in Hmax.
  simpl. fold entries. rewrite Hmax.
  assert (Hgroup : ∃ code,
    emit_group (build_insn_group fuel knl) knl entries st done_
      (schedule_index si_entry) g cs
      (group_pred_set st si_entry entries done_ g) = Finished (Ok code)).
  { unfold emit_group. destruct (group_is_empty cs); [by eexists |].
    destruct (bool_decide (g = 1)) eqn:Hg;
      [| apply bool_decide_eq_false in Hg].
    - destruct (generate_code_for_sched_index knl (schedule_index si_entry)
                  (narrowed_state st cs _)) as [r|e] eqn:Hgen.
      + simpl. by eexists.
      + specialize (Hleaf si_entry (narrowed_state st cs
            (group_pred_set st si_entry entries done_ g))
          ltac:(left)).
        by rewrite Hgen in Hleaf.
    - assert (Hone' : 1 ∉ done_ ∪ {[g]}).
      { rewrite not_elem_of_union, not_elem_of_singleton.
        split; [done | lia]. }
      assert (Hleaf' : ∀ e st', e ∈ take g entries →
                is_Ok (generate_code_for_sched_index knl (schedule_index e)
                         st') = true).
      { intros e st' He. apply Hleaf. by apply (subseteq_take g entries). }
      assert (Hfuel' :
        2 * length (take g entries)
        + (if bool_decide (length (take g entries) ∈ done_ ∪ {[g]})
           then 0 else 1) < fuel).
      { rewrite length_take, Nat.min_l by done.
        rewrite bool_decide_eq_true_2
          by (apply elem_of_union_r, elem_of_singleton; done).
        destruct (decide (g = length entries)) as [Heq|Hlt].
        - rewrite bool_decide_eq_false_2 in Hfuel by congruence. lia.
        - repeat case_bool_decide; lia. }
      destruct (IH (take g entries)
                  (narrowed_state st cs
                     (group_pred_set st si_entry entries done_ g))
                  (done_ ∪ {[g]}) Hone' Hleaf' Hfuel') as [inner ->].
      simpl. by eexists. }
  destruct Hgroup as [code ->]. simpl.
  assert (Hleaf' : ∀ e st', e ∈ drop g entries →
            is_Ok (generate_code_for_sched_index knl (schedule_index e) st')
            = true).
  { intros e st' He. apply Hleaf. by apply (subseteq_drop g entries). }
  pose proof (IH (drop g entries) st ∅ (not_elem_of_empty 1) Hleaf')
    as IHrest.
  lapply IHrest; [intros [rest_code ->] |].
  - simpl. by eexists.
  - rewrite length_drop. repeat case_bool_decide; lia.
Qed.

(** X9: on entries whose required predicates are the sets that
    [get_required_predicates] returned for them, the builder raises nothing
    of its own.  When the bounds-check derivation never returns [None] and
    the code generation of every entry succeeds in every state, then from a
    [done_group_lengths] without 1, as in the call from [build_loop_nest],
    the builder returns code.  An entry for which
    [get_required_predicates] returned [None], which makes line 260 raise a
    [TypeError], is not covered. *)
Theorem build_insn_group_never_raises (knl : kernel)
    (entries : list ScheduleIndexInfo) (st : codegen_state)
    (done_group_lengths : gset nat) :
  (∀ e, e ∈ entries →
     get_required_predicates knl (schedule_index e)
     = Ok (Some (required_predicates e))) →
  (∀ impl_domain check_inames,
     get_bounds_checks knl impl_domain check_inames ≠ None) →
  (∀ e st', e ∈ entries →
     is_Ok (generate_code_for_sched_index knl (schedule_index e) st')
     = true) →
  1 ∉ done_group_lengths →
  ∃ code,
    run_build_insn_group knl entries st done_group_lengths
    = Finished (Ok code).
Proof.
  intros _ Hbounds Hleaf Hone. unfold run_build_insn_group.
  apply never_raises_fuel; [done | done | done |].
  unfold enough_fuel. case_bool_decide; lia.
Qed.

End BuilderOutcomes.

Lemma nothing_to_hoist_witness :
  run_build_insn_group (cb:=Plain.backend) Toy.knl Plain.entries
    Toy.initial_state ∅
  = Finished
      (Ok [Toy.Stmt "instruction"; Toy.Stmt "barrier(CLK_LOCAL_MEM_FENCE)";
           Toy.Stmt "unrolled loop"]).
Proof.
  rewrite (nothing_to_hoist (cb:=Plain.backend) Toy.knl Toy.initial_state
             Plain.entries).
  - vm_compute. reflexivity.
  - intros impl_domain check_inames. reflexivity.
  - repeat constructor; apply empty_subseteq.
Defined.

Lemma build_insn_group_never_raises_witness :
  ∃ code,
    run_build_insn_group (cb:=Plain.backend) Toy.knl Toy.entries
      Toy.initial_state ∅
    = Finished (Ok code).
Proof.
  apply (build_insn_group_never_raises (cb:=Plain.backend) Toy.knl
           Toy.entries Toy.initial_state ∅).
  - intros e He. unfold Toy.entries in He.
    repeat (apply elem_of_cons in He as [->|He];
            [vm_compute; reflexivity |]).
    by apply elem_of_nil in He.
  - intros impl_domain check_inames. discriminate.
  - intros e st' He. unfold Toy.entries in He.
    repeat (apply elem_of_cons in He as [->|He]; [reflexivity |]).
    by apply elem_of_nil in He.
  - apply not_elem_of_empty.
Defined.

(** ** The sibling scan of [build_loop_nest] *)

Lemma sibling_indices_cons (start next : nat) (later : list nat)
    (sched : list sched_item) (item : sched_item) :
  sched !! start = Some item →
  (∀ iname, item ≠ LeaveLoop iname) →
  start < next →
  (∀ i, i ∈ later →
        next ≤ i ∧ ∃ item', sched !! i = Some item'
                            ∧ ∀ iname, item' ≠ LeaveLoop iname) →
  (∀ a b x y, a < b → later !! a = Some x → later !! b = Some y → x < y) →
  (∀ i, i ∈ start :: later →
        start ≤ i ∧ ∃ item', sched !! i = Some item'
                             ∧ ∀ iname, item' ≠ LeaveLoop iname)
  ∧ (∀ a b x y, a < b → (start :: later) !! a = Some x →
                (start :: later) !! b = Some y → x < y).
Proof.
  intros Hitem Hleave Hnext Hlater Hinc. split.
  - intros i [->|Hi]%elem_of_cons; [by eauto |].
    destruct (Hlater i Hi) as [Hle Hex]. split; [lia | done].
  - intros [|a] [|b] x y Hab Ha Hb; simpl in *; [lia | | lia |].
    + simplify_eq. apply list_elem_of_lookup_2 in Hb.
      destruct (Hlater y Hb) as [Hle _]. lia.
    + apply (Hinc a b); [lia | done | done].
Qed.

(** X10: when [gather_schedule_subloop] returns a position after the loop it
    is asked about, the sibling scan of [build_loop_nest] ends; the positions
    it collects start at [sched_index] when an item other than a [LeaveLoop]
    is there, are positions of the schedule at or after [sched_index], come
    in strictly increasing order, and none of them holds a [LeaveLoop]. *)
Theorem sibling_sched_indices_spec
    (gather_end : list sched_item → nat → nat) (sched : list sched_item) :
  (∀ i iname, sched !! i = Some (EnterLoop iname) → i < gather_end sched i) →
  ∀ fuel sched_index,
    length sched - sched_index < fuel →
    ∃ indices,
      sibling_sched_indices fuel gather_end sched sched_index
      = Finished (Ok indices)
      ∧ (∀ i, i ∈ indices →
              sched_index ≤ i
              ∧ ∃ item, sched !! i = Some item
                        ∧ ∀ iname, item ≠ LeaveLoop iname)
      ∧ (∀ a b x y, a < b → indices !! a = Some x → indices !! b = Some y →
                    x < y)
      ∧ (∀ item, sched !! sched_index = Some item →
                 (∀ iname, item ≠ LeaveLoop iname) →
                 head indices = Some sched_index).
Proof.
  intros Hprogress.
  induction fuel as [|fuel IH]; intros sched_index Hfuel; [lia |].
  simpl. destruct (sched !! sched_index) as [item|] eqn:Hitem.
  2: { exists []. split; [done |]. split; [by intros i Hi%elem_of_nil |].
       split; [by intros [|?] ? ? ? ? ? | done]. }
  assert (Hlen : sched_index < length sched) by (by eapply lookup_lt_Some).
  assert (Hstep : ∀ next,
    sched_index < next →
    (∀ iname, item ≠ LeaveLoop iname) →
    ∃ indices,
      run_bind (sibling_sched_indices fuel gather_end sched next)
        (λ later, Finished (Ok (sched_index :: later)))
      = Finished (Ok indices)
      ∧ (∀ i, i ∈ indices →
              sched_index ≤ i
              ∧ ∃ item', sched !! i = Some item'
                         ∧ ∀ iname, item' ≠ LeaveLoop iname)
      ∧ (∀ a b x y, a < b → indices !! a = Some x → indices !! b = Some y →
                    x < y)
      ∧ (∀ item', Some item = Some item' →
                  (∀ iname, item' ≠ LeaveLoop iname) →
                  head indices = Some sched_index)).
  { intros next Hnext Hleave.
    destruct (IH next) as (later & -> & Hlater & Hinc & _); [lia |].
    exists (sched_index :: later). split; [done |].
    destruct (sibling_indices_cons sched_index next later sched item
                Hitem Hleave Hnext Hlater Hinc) as [Hall Hinc'].
    done. }
  destruct item as [iname|iname|comment|insn_id].
  - apply Hstep; [by eapply Hprogress | done].
  - exists []. split; [done |]. split; [by intros i Hi%elem_of_nil |].
    split; [by intros [|?] ? ? ? ? ? |].
    intros item' [= <-] Hleave. by destruct (Hleave iname).
  - apply Hstep; [lia | done].
  - apply Hstep; [lia | done].
Qed.

Lemma gather_schedule_subloop_end_progress (sched : list sched_item)
    (i : nat) (iname : string) :
  sched !! i = Some (EnterLoop iname) →
  i < gather_schedule_subloop_end sched i.
Proof.
  intros Hi. unfold gather_schedule_subloop_end, subtree_items.
  rewrite (drop_S _ _ _ Hi). simpl. lia.
Qed.

Lemma sibling_sched_indices_spec_witness :
  sibling_sched_indices 7 gather_schedule_subloop_end (schedule Toy.knl) 1
  = Finished (Ok [1; 2; 3]).
Proof.
  destruct (sibling_sched_indices_spec gather_schedule_subloop_end
              (schedule Toy.knl)
              (gather_schedule_subloop_end_progress (schedule Toy.knl))
              7 1) as (indices & Hrun & _).
  - vm_compute. lia.
  - rewrite Hrun. revert Hrun. vm_compute. by intros [= <-].
Defined.

(** ** [static_extremum_of_pw_aff] on two or more pieces *)

Section StaticExtremum.
Context {isl : IslOps}.

Lemma extremum_search_none (pw_aff : isl_pw_aff) (constants_only : bool)
    (set_method : isl_pw_aff → isl_aff → isl_set) (agg_domain : isl_set)
    (pieces : list (isl_set * isl_aff)) :
  extremum_search pw_aff constants_only set_method agg_domain pieces = None
  ↔ ∀ c, c ∈ pieces.*2 →
         (constants_only = true → is_cst c = true) →
         set_is_equal (set_method pw_aff c) agg_domain = false.
Proof.
  induction pieces as [|[s c] pieces IH]; simpl.
  - split; [by intros _ c Hc%elem_of_nil | done].
  - destruct (constants_only && negb (is_cst c)) eqn:Eskip.
    + rewrite IH. apply andb_true_iff in Eskip as [-> Hcst].
      apply negb_true_iff in Hcst. split.
      * intros Hall c' [->|Hc']%elem_of_cons Hconst; [| by apply Hall].
        specialize (Hconst eq_refl). congruence.
      * intros Hall c' Hc'. apply Hall. by right.
    + destruct (set_is_equal (set_method pw_aff c) agg_domain) eqn:Eeq.
      * split; [done |]. intros Hall.
        rewrite (Hall c) in Eeq; [done | left |].
        intros ->. simpl in Eskip. by apply negb_false_iff in Eskip.
      * rewrite IH. split.
        -- intros Hall c' [->|Hc']%elem_of_cons Hconst; [done | by apply Hall].
        -- intros Hall c' Hc'. apply Hall. by right.
Qed.

(** X11: on an expression with no piece or with two or more pieces,
    [static_extremum_of_pw_aff] returns only a piece that is constant when
    [constants_only] is set and for which [set_method] gives the whole
    aggregate domain; it raises, a [ValueError], exactly when no piece is
    like that, so always when there is no piece. *)
Theorem static_extremum_several_pieces (pw_aff : isl_pw_aff)
    (constants_only : bool) (set_method : isl_pw_aff → isl_aff → isl_set)
    (what : string) :
  length (get_pieces pw_aff) ≠ 1 →
  (∀ c, static_extremum_of_pw_aff pw_aff constants_only set_method what
        = Ok c →
        c ∈ (get_pieces pw_aff).*2
        ∧ (constants_only = true → is_cst c = true)
        ∧ set_is_equal (set_method pw_aff c) (get_aggregate_domain pw_aff)
          = true)
  ∧ (is_Raise (static_extremum_of_pw_aff pw_aff constants_only set_method
                 what) = true
     ↔ ∀ c, c ∈ (get_pieces pw_aff).*2 →
            (constants_only = true → is_cst c = true) →
            set_is_equal (set_method pw_aff c) (get_aggregate_domain pw_aff)
            = false)
  ∧ (∀ e, static_extremum_of_pw_aff pw_aff constants_only set_method what
          = Raise e →
          ∃ msg, e = ValueError msg).
Proof.
  intros Hlen.
  assert (Hunfold :
    static_extremum_of_pw_aff pw_aff constants_only set_method what
    = match extremum_search pw_aff constants_only set_method
              (get_aggregate_domain pw_aff) (get_pieces pw_aff) with
      | Some c => Ok c
      | None => Raise (ValueError
                         ("a static " +:+ what
                          +:+ " was not found for PwAff"))
      end).
  { unfold static_extremum_of_pw_aff.
    destruct (get_pieces pw_aff) as [|[s a] [|p pieces]]; simpl in *;
      done. }
  rewrite Hunfold. rewrite <- extremum_search_none.
  destruct (extremum_search _ _ _ _ _) as [c|] eqn:Hs.
  - split; [| split; [done |]]; [| by intros e [=]].
    intros c' [= <-]. by apply extremum_search_sound in Hs.
  - split; [done |]. split; [done |]. intros e [= <-]. by eexists.
Qed.

Lemma extremum_search_relax (pw_aff : isl_pw_aff)
    (set_method : isl_pw_aff → isl_aff → isl_set) (agg_domain : isl_set)
    (pieces : list (isl_set * isl_aff)) (c : isl_aff) :
  extremum_search pw_aff true set_method agg_domain pieces = Some c →
  ∃ c', extremum_search pw_aff false set_method agg_domain pieces = Some c'.
Proof.
  induction pieces as [|[s a] pieces IH]; simpl; [done |].
  destruct (set_is_equal (set_method pw_aff a) agg_domain).
  - intros _. by eexists.
  - destruct (negb (is_cst a)); apply IH.
Qed.

(** X12: asking for a constant extremum is the harder request: whenever
    [static_extremum_of_pw_aff] returns with [constants_only] set, it also
    returns without it. *)
Theorem static_extremum_constants_only_harder (pw_aff : isl_pw_aff)
    (set_method : isl_pw_aff → isl_aff → isl_set) (what : string) :
  is_Ok (static_extremum_of_pw_aff pw_aff true set_method what) = true →
  is_Ok (static_extremum_of_pw_aff pw_aff false set_method what) = true.
Proof.
  unfold static_extremum_of_pw_aff.
  destruct (get_pieces pw_aff) as [|[s a] [|p pieces]] eqn:Hp; [| done |].
  - done.
  - destruct (extremum_search pw_aff true _ _ _) as [c|] eqn:Hs; [| done].
    apply extremum_search_relax in Hs as [c' ->]. done.
Qed.

End StaticExtremum.

Lemma static_extremum_several_pieces_witness :
  (0%Z, 5%Z) ∈ (get_pieces (IslOps:=FiniteIsl.ops)
                  FiniteIsl.ramp_then_five).*2
  ∧ (true = true → is_cst (IslOps:=FiniteIsl.ops) (0%Z, 5%Z) = true)
  ∧ set_is_equal (IslOps:=FiniteIsl.ops)
      (le_set (IslOps:=FiniteIsl.ops) FiniteIsl.ramp_then_five (0%Z, 5%Z))
      (get_aggregate_domain (IslOps:=FiniteIsl.ops)
         FiniteIsl.ramp_then_five) = true.
Proof.
  destruct (static_extremum_several_pieces (isl:=FiniteIsl.ops)
              FiniteIsl.ramp_then_five true
              (le_set (IslOps:=FiniteIsl.ops)) "maximum") as [Hok _].
  - vm_compute. lia.
  - apply (Hok (0%Z, 5%Z)). vm_compute. reflexivity.
Defined.

Lemma static_extremum_constants_only_harder_witness :
  is_Ok (static_extremum_of_pw_aff (isl:=FiniteIsl.ops)
           FiniteIsl.ramp_then_five false
           (le_set (IslOps:=FiniteIsl.ops)) "maximum") = true.
Proof.
  apply (static_extremum_constants_only_harder (isl:=FiniteIsl.ops)).
  vm_compute. reflexivity.
Defined.

(** ** [block_shift_constraint] *)

Module AffineConstraintFacts.
Import AffineConstraint.

Lemma linear_part_insert (x : dim_type * nat → Z)
    (coeffs : gmap (dim_type * nat) Z) (d : dim_type * nat) (k : Z) :
  coeffs !! d = None →
  map_fold (λ d k acc, k * x d + acc)%Z 0%Z (<[d:=k]> coeffs)
  = (k * x d + map_fold (λ d k acc, k * x d + acc) 0 coeffs)%Z.
Proof.
  intros Hd. apply (map_fold_insert_L (λ d k acc, k * x d + acc)%Z);
    [| done].
  intros. lia.
Qed.

Lemma linear_part_shift (x : dim_type * nat → Z)
    (coeffs : gmap (dim_type * nat) Z) (type : dim_type) (pos : nat)
    (multiple : Z) :
  map_fold (λ d k acc, k * shift_point x type pos multiple d + acc)%Z 0%Z
    coeffs
  = (map_fold (λ d k acc, k * x d + acc) 0 coeffs
     + default 0 (coeffs !! (type, pos)) * multiple)%Z.
Proof.
  induction coeffs as [|d k coeffs Hd _ IH] using map_first_key_ind.
  - rewrite !map_fold_empty, lookup_empty. simpl. lia.
  - rewrite !linear_part_insert, IH by done.
    unfold shift_point at 1.
    destruct (decide (d = (type, pos))) as [->|Hne].
    + rewrite lookup_insert_eq, Hd. simpl. lia.
    + rewrite lookup_insert_ne by done. lia.
Qed.

Lemma aff_value_shift (a : aff) (x : dim_type * nat → Z) (type : dim_type)
    (pos : nat) (multiple : Z) :
  aff_value a (shift_point x type pos multiple)
  = (aff_value a x + default 0 (coefficients a !! (type, pos)) * multiple)%Z.
Proof. unfold aff_value. rewrite linear_part_shift. lia. Qed.

(** X13: [block_shift_constraint] returns an equality exactly when
    [as_equality] is true (an inequality also when it is left out), keeps
    the coefficients, and adds the coefficient of the shifted dimension,
    times [multiple], to the constant.  The result holds at a point exactly
    when the original expression, read as the requested kind of constraint,
    holds at the point moved by [multiple] along that dimension. *)
Theorem block_shift_constraint_spec (cns : constraint) (type : dim_type)
    (pos : nat) (multiple : Z) (as_equality : option bool) :
  let shifted := block_shift_constraint cns type pos multiple as_equality in
  is_equality shifted = default false as_equality
  ∧ coefficients (get_aff shifted) = coefficients (get_aff cns)
  ∧ get_constant shifted
    = (get_constant cns + get_coefficient cns type pos * multiple)%Z
  ∧ ∀ x, holds shifted x
         ↔ holds (mk_constraint (default false as_equality) (get_aff cns))
                 (shift_point x type pos multiple).
Proof.
  intros shifted.
  assert (Hshape :
    shifted
    = mk_constraint (default false as_equality)
        (mk_aff (coefficients (get_aff cns))
           (get_constant cns + get_coefficient cns type pos * multiple))).
  { unfold shifted, block_shift_constraint.
    destruct cns as [eq a], as_equality as [[]|], eq; simpl; done. }
  rewrite Hshape. repeat split; try done.
  - unfold holds. simpl. rewrite aff_value_shift. unfold aff_value. simpl.
    unfold get_constant, get_coefficient.
    destruct (default false as_equality); lia.
  - unfold holds. simpl. rewrite aff_value_shift. unfold aff_value. simpl.
    unfold get_constant, get_coefficient.
    destruct (default false as_equality); lia.
Qed.

(** X14: shifting twice along one dimension, with the same [as_equality],
    is shifting once by the sum; shifting by 0 a constraint of the
    requested kind changes nothing. *)
Theorem block_shift_constraint_compose (cns : constraint) (type : dim_type)
    (pos : nat) (multiple1 multiple2 : Z) (as_equality : option bool) :
  block_shift_constraint
    (block_shift_constraint cns type pos multiple1 as_equality)
    type pos multiple2 as_equality
  = block_shift_constraint cns type pos (multiple1 + multiple2) as_equality
  ∧ (as_equality = Some (is_equality cns) →
     block_shift_constraint cns type pos 0 as_equality = cns).
Proof.
  split.
  - unfold block_shift_constraint.
    destruct cns as [eq [coeffs c]], as_equality as [[]|], eq; simpl;
      unfold set_constant, get_constant, get_coefficient; simpl;
      do 2 f_equal; lia.
  - intros ->. unfold block_shift_constraint.
    rewrite bool_decide_eq_false_2 by (intros Hne; by apply Hne).
    destruct cns as [eq [coeffs c]].
    unfold set_constant, get_constant, get_coefficient. simpl.
    do 2 f_equal. lia.
Qed.

Lemma block_shift_constraint_compose_witness :
  block_shift_constraint sample dt_set 0 0 (Some false) = sample.
Proof.
  apply (block_shift_constraint_compose sample dt_set 0 0 0 (Some false)).
  reflexivity.
Defined.

(** The sample constraint [2*i - j + 3 >= 0], shifted by 5 along [i], is
    [2*i - j + 13 >= 0]; as an equality it is [2*i - j + 13 = 0]. *)
Example block_shift_constraint_sample :
  block_shift_constraint sample dt_set 0 5 None
  = inequality_from_aff
      (mk_aff {[ (dt_set, 0) := 2%Z; (dt_set, 1) := (-1)%Z ]} 13%Z)
  ∧ block_shift_constraint sample dt_set 0 5 (Some true)
    = equality_from_aff
        (mk_aff {[ (dt_set, 0) := 2%Z; (dt_set, 1) := (-1)%Z ]} 13%Z).
Proof. split; vm_compute; reflexivity. Qed.

End AffineConstraintFacts.

(** ** [make_slab] *)

Section MakeSlabFacts.
Context {isl : IslOps} {build : IslBuildOps}.

Lemma bound_to_aff_value (laws : IslBuildLaws) (space : isl_space)
    (bound : slab_bound) (a : isl_aff) :
  bound_to_aff (zero_on_domain space) bound = Ok a →
  ∀ p, aff_eval a p = bound_value bound p.
Proof.
  destruct laws. destruct bound as [pw_aff|n|a']; simpl.
  - destruct (pw_aff_to_aff pw_aff) as [a0|e]; simpl; [| done].
    intros [= <-] p. apply eval_align_spaces0.
  - intros [= <-] p. rewrite eval_add_int0, eval_zero0. lia.
  - by intros [= <-] p.
Qed.

Lemma bound_to_aff_error (zero : isl_aff) (bound : slab_bound) :
  match bound_error bound with
  | Some e => bound_to_aff zero bound = Raise e
  | None => ∃ a, bound_to_aff zero bound = Ok a
  end.
Proof.
  destruct bound as [pw_aff|n|a]; simpl; [| by eexists | by eexists].
  destruct (pw_aff_to_aff pw_aff) as [a|e]; simpl; [by eexists | done].
Qed.

(** X15: the set that [make_slab] returns is the slab
    [start <= iname < stop] of the space: a point is in it exactly when it
    is in the universe of the space and its [iname] coordinate is at least
    the value of [start] and less than the value of [stop] there.  With
    integer bounds and [stop <= start] the slab has no point. *)
Theorem make_slab_contains (laws : IslBuildLaws) (space : isl_space)
    (iname : string) (start stop : slab_bound) (slab : isl_set) :
  make_slab space iname start stop = Ok slab →
  ∃ iname_dim,
    get_var_dict space !! iname = Some iname_dim
    ∧ (∀ p, set_contains slab p
            ↔ set_contains (set_universe space) p
              ∧ (bound_value start p ≤ coordinate p iname_dim)%Z
              ∧ (coordinate p iname_dim < bound_value stop p)%Z)
    ∧ (∀ m n, start = BoundInt m → stop = BoundInt n → (n ≤ m)%Z →
              ∀ p, ¬ set_contains slab p).
Proof.
  unfold make_slab.
  destruct (bound_to_aff (zero_on_domain space) start) as [a_start|e]
    eqn:Hstart; simpl; [| done].
  destruct (bound_to_aff (zero_on_domain space) stop) as [a_stop|e]
    eqn:Hstop; simpl; [| done].
  destruct (get_var_dict space !! iname) as [iname_dim|]; [| done].
  intros [= <-]. exists iname_dim. split; [done |].
  assert (Hmem : ∀ p,
    set_contains
      (add_inequality_from_aff
         (add_inequality_from_aff (set_universe space)
            (aff_sub (aff_add_coefficient (zero_on_domain space) iname_dim 1)
               a_start))
         (aff_sub (aff_sub_int a_stop 1)
            (aff_add_coefficient (zero_on_domain space) iname_dim 1))) p
    ↔ set_contains (set_universe space) p
      ∧ (bound_value start p ≤ coordinate p iname_dim)%Z
      ∧ (coordinate p iname_dim < bound_value stop p)%Z).
  { intros p.
    rewrite <- (bound_to_aff_value laws space start a_start Hstart p).
    rewrite <- (bound_to_aff_value laws space stop a_stop Hstop p).
    destruct laws.
    rewrite !contains_add_inequality0, !eval_sub0, eval_sub_int0,
      eval_add_coefficient0, eval_zero0.
    split; intros H; repeat split; try tauto; lia. }
  split; [done |].
  intros m n -> -> Hle p Hp. apply Hmem in Hp as (_ & H1 & H2).
  simpl in *. lia.
Qed.

(** X16: [make_slab] fails exactly because of a piecewise-affine bound that
    [pw_aff_to_aff] refuses, or because [iname] is not a variable of the
    space.  What a refused [start] raises comes first, then what a refused
    [stop] raises, then the [KeyError]; integer and affine bounds are never
    refused. *)
Theorem make_slab_failures (space : isl_space) (iname : string)
    (start stop : slab_bound) :
  (∀ e, bound_error start = Some e →
        make_slab space iname start stop = Raise e)
  ∧ (∀ e, bound_error start = None → bound_error stop = Some e →
          make_slab space iname start stop = Raise e)
  ∧ (bound_error start = None → bound_error stop = None →
     get_var_dict space !! iname = None →
     make_slab space iname start stop = Raise (KeyError iname))
  ∧ (is_Ok (make_slab space iname start stop) = true
     ↔ bound_error start = None ∧ bound_error stop = None
       ∧ is_Some (get_var_dict space !! iname))
  ∧ (∀ n, bound_error (BoundInt n) = None)
  ∧ (∀ a, bound_error (BoundAff a) = None).
Proof.
  pose proof (bound_to_aff_error (zero_on_domain space) start) as Hstart.
  pose proof (bound_to_aff_error (zero_on_domain space) stop) as Hstop.
  assert (Hrun :
    make_slab space iname start stop
    = match bound_error start, bound_error stop with
      | Some e, _ => Raise e
      | None, Some e => Raise e
      | None, None =>
          match get_var_dict space !! iname with
          | None => Raise (KeyError iname)
          | Some _ => make_slab space iname start stop
          end
      end
    ∧ (bound_error start = None → bound_error stop = None →
       is_Some (get_var_dict space !! iname) →
       is_Ok (make_slab space iname start stop) = true)).
  { unfold make_slab.
    destruct (bound_error start) as [e1|].
    { rewrite Hstart. by split. }
    destruct Hstart as [a1 ->]. simpl.
    destruct (bound_error stop) as [e2|].
    { rewrite Hstop. by split. }
    destruct Hstop as [a2 ->]. simpl.
    destruct (get_var_dict space !! iname) as [d|]; simpl; [by split |].
    split; [done |]. by intros _ _ [? ?]. }
  destruct Hrun as [Hrun Hok].
  split; [intros e He; by rewrite Hrun, He |].
  split; [intros e He1 He2; by rewrite Hrun, He1, He2 |].
  split; [intros He1 He2 Hd; by rewrite Hrun, He1, He2, Hd |].
  split; [| done].
  split.
  - intros Hr. rewrite Hrun in Hr.
    destruct (bound_error start); [done |].
    destruct (bound_error stop); [done |].
    destruct (get_var_dict space !! iname); [| done].
    split; [done |]. split; [done | by eexists].
  - intros (He1 & He2 & Hd). by apply Hok.
Qed.

End MakeSlabFacts.

Lemma finite_isl_build_laws :
  IslBuildLaws (isl:=FiniteIsl.ops) (build:=FiniteIslBuild.ops).
Proof.
  split; simpl; unfold FiniteIsl.aff_eval; simpl; intros; try lia.
  rewrite elem_of_filter. unfold FiniteIsl.aff_eval. tauto.
Qed.

Lemma make_slab_contains_witness :
  ∃ slab,
    make_slab (isl:=FiniteIsl.ops) (build:=FiniteIslBuild.ops) FiniteIslBuild.zero_to_nine "x"
      (BoundInt (isl:=FiniteIsl.ops) 2) (BoundPwAff (isl:=FiniteIsl.ops) FiniteIsl.seven_twice) = Ok slab
    ∧ ∀ p : Z, p ∈ slab
               ↔ p ∈ FiniteIslBuild.zero_to_nine ∧ (2 ≤ p)%Z ∧ (p < 7)%Z.
Proof.
  eexists. split; [vm_compute; reflexivity |].
  destruct (make_slab_contains (isl:=FiniteIsl.ops) (build:=FiniteIslBuild.ops)
              finite_isl_build_laws FiniteIslBuild.zero_to_nine "x"
              (BoundInt (isl:=FiniteIsl.ops) 2) (BoundPwAff (isl:=FiniteIsl.ops) FiniteIsl.seven_twice) _ eq_refl)
    as (d & _ & Hmem & _).
  intros p. apply (Hmem p).
Defined.

Lemma make_slab_failures_witness :
  make_slab (isl:=FiniteIsl.ops) (build:=FiniteIslBuild.ops) FiniteIslBuild.zero_to_nine "y"
    (BoundInt (isl:=FiniteIsl.ops) 2) (BoundPwAff (isl:=FiniteIsl.ops) FiniteIsl.ramp_then_five)
  = Raise (NotImplementedError
             "only single-valued piecewise affine expressions are supported here--encountered multi-valued expression").
Proof.
  destruct (make_slab_failures (isl:=FiniteIsl.ops) (build:=FiniteIslBuild.ops)
              FiniteIslBuild.zero_to_nine "y"
              (BoundInt (isl:=FiniteIsl.ops) 2) (BoundPwAff (isl:=FiniteIsl.ops) FiniteIsl.ramp_then_five))
    as (_ & Hstop & _).
  apply Hstop; reflexivity.
Defined.

(** ** The argument declarations of the ISPC target *)

(** X17: [get_value_arg_decl] takes the declaration of the C target and
    returns it marked uniform: without [occa_mode] nothing else changes,
    a [Const] taken off is put back; with [occa_mode] a reference is put
    around the declaration, under the [Const] if there is one.  Either way
    the declaration under [ISPCUniform] is [Const] exactly when the C
    target's was.  A global argument is a uniform pointer, [Const] exactly
    when the argument is not written. *)
Theorem ispc_arg_decls :
  (∀ d, get_value_arg_decl false d = ISPCUniform d)
  ∧ (∀ d, get_value_arg_decl true (Const d)
          = ISPCUniform (Const (Reference d)))
  ∧ (∀ d, is_Const d = false →
          get_value_arg_decl true d = ISPCUniform (Reference d))
  ∧ (∀ occa_mode d,
       ∃ inner, get_value_arg_decl occa_mode d = ISPCUniform inner
                ∧ is_Const inner = is_Const d)
  ∧ (∀ name dtype is_written,
       ∃ inner, get_global_arg_decl name dtype is_written
                = ISPCUniform inner
                ∧ is_Const inner = negb is_written).
Proof.
  repeat split.
  - by intros [].
  - by intros [].
  - intros occa_mode d. unfold get_value_arg_decl.
    destruct d, occa_mode; simpl; by eexists.
  - intros name dtype [|]; simpl; by eexists.
Qed.

Lemma ispc_arg_decls_witness :
  get_value_arg_decl true (Value "int" "n")
  = ISPCUniform (Reference (Value "int" "n")).
Proof.
  destruct ispc_arg_decls as (_ & _ & Hplain & _).
  apply Hplain. reflexivity.
Defined.

(** ** A builder left without a candidate *)

Section NoCandidate.
Context {cb : Collaborators}.

Lemma no_candidate_left (knl : kernel) (st : codegen_state)
    (si_entry : ScheduleIndexInfo) (entries : list ScheduleIndexInfo)
    (done_group_lengths : gset nat) :
  (∀ k, 1 ≤ k → k ≤ length entries → k ∈ done_group_lengths) →
  find_hoists knl st si_entry entries done_group_lengths = [].
Proof.
  intros Hdone.
  destruct (find_hoists knl st si_entry entries done_group_lengths)
    as [|h found] eqn:Hfound; [done |].
  assert (Hin : h ∈ find_hoists knl st si_entry entries done_group_lengths)
    by (rewrite Hfound; left).
  apply find_hoists_elem in Hin as ([Hk1 Hk2] & Hnd & _).
  destruct Hnd. by apply Hdone.
Qed.

(** X19: [done_group_lengths] can leave the builder without a candidate:
    when it has every length from 1 to the number of entries, and there is
    an entry, no hoist is found and [max] raises a [ValueError]. *)
Theorem build_insn_group_no_candidate (knl : kernel) (st : codegen_state)
    (si_entry : ScheduleIndexInfo) (rest : list ScheduleIndexInfo)
    (done_group_lengths : gset nat) (fuel : nat) :
  (∀ k, 1 ≤ k → k ≤ S (length rest) → k ∈ done_group_lengths) →
  build_insn_group (S fuel) knl (si_entry :: rest) st done_group_lengths
  = Finished (Raise (ValueError "max() arg is an empty sequence")).
Proof.
  intros Hdone. simpl. by rewrite no_candidate_left.
Qed.

End NoCandidate.

Lemma build_insn_group_no_candidate_witness :
  build_insn_group (cb:=Toy.backend) 1 Toy.knl
    [ mk_info 1 {[ "i" ]} ∅ ] Toy.initial_state {[ 1 ]}
  = Finished (Raise (ValueError "max() arg is an empty sequence")).
Proof.
  apply (build_insn_group_no_candidate (cb:=Toy.backend) Toy.knl
           Toy.initial_state (mk_info 1 {[ "i" ]} ∅) [] {[ 1 ]} 0).
  intros k Hk1 Hk2. simpl in Hk2.
  assert (k = 1) as -> by lia. by apply elem_of_singleton.
Defined.
